(** * RevolvingSimulator: the amortization core of [src/App.tsx]

    A shallow embedding of [calculateProjectedInterest] and
    [calculateSimulation], and the properties of the specification that
    concern them.

    Numbers.  The TypeScript code computes on [number], the IEEE 754
    binary64 format.  The code is embedded twice, line for line.

    - On exact rationals: amounts and rates are [Q], [Math.floor] is
      [Qfloor] injected back into [Q], comparisons are the boolean tests on
      [Q] and equality of amounts is [Qeq] (written [==]).  This is the
      program with rounding error removed; it carries the properties that
      rest on the control flow of the loop and on its comparisons.

    - On binary64 numbers (module [Binary64]): amounts and rates are Rocq's
      primitive floats, with rounding after every operation, signed zeros,
      infinities and NaN.  It carries the properties that depend on the
      computed values.

    In both, the month counter is an integer and is modelled as [Z]. *)

From Stdlib Require Import QArith Qround Qabs Qminmax ZArith List Bool Lia Lqa.
From Stdlib Require Import Floats.
Import ListNotations.

(** Decimal literals of binary64 numbers denote the nearest binary64 value,
    as they do in JavaScript. *)
#[local] Set Warnings "-inexact-float".

Open Scope Q_scope.

(** ** Number primitives *)

(** [Math.floor] *)
Definition floor (x : Q) : Q := inject_Z (Qfloor x).

(** [x < y] and [x > y] on numbers, as booleans. *)
Definition Qlt_bool (x y : Q) : bool := negb (Qle_bool y x).
Definition Qgt_bool (x y : Q) : bool := negb (Qle_bool x y).

(** ** Data model ([types.ts]) *)

Record SimulationParams : Type := mkParams {
  initialBalance : Q;
  monthlyNewCharge : Q;
  monthlyRepayment : Q;
  annualInterestRate : Q
}.

Module MonthData.
Record t : Type := mk {
  month : Z;
  balance : Q;
  principalPaid : Q;
  interestPaid : Q;
  totalPaid : Q;
  cumulativeInterest : Q;
  cumulativePrincipal : Q;
  remainingInterest : Q
}.
End MonthData.

Module SimulationResult.
Record t : Type := mk {
  data : list MonthData.t;
  totalInterest : Q;
  totalPaid : Q;
  months : Z;
  isInfinite : bool
}.
End SimulationResult.

(** ** [calculateProjectedInterest] *)

Definition MAX_PROJ_MONTHS : nat := 600%nat.

(** The payment of one month: the fixed repayment, or the whole of
    [balance + interest] in the payoff month. *)
Definition paymentOf (balance interest monthlyRepayment : Q) : Q :=
  if Qle_bool (balance + interest) monthlyRepayment
  then balance + interest
  else monthlyRepayment.

(** The [for] loop, [n] being the number of iterations still allowed. *)
Fixpoint projectionLoop (n : nat) (monthlyRepayment monthlyRate : Q)
    (currentBal totalInt : Q) : Q :=
  match n with
  | O => totalInt
  | S n' =>
      let interest := floor (currentBal * monthlyRate) in
      let payment := paymentOf currentBal interest monthlyRepayment in
      let principal := payment - interest in
      let currentBal := currentBal - principal in
      let totalInt := totalInt + interest in
      if Qle_bool currentBal 0 then totalInt
      else projectionLoop n' monthlyRepayment monthlyRate currentBal totalInt
  end.

Definition calculateProjectedInterest
    (balance monthlyRepayment annualInterestRate : Q) : Q :=
  if Qle_bool balance 0 then 0
  else
    let monthlyRate := annualInterestRate / 100 / 12 in
    projectionLoop MAX_PROJ_MONTHS monthlyRepayment monthlyRate balance 0.

(** ** [calculateSimulation] *)

Definition MAX_MONTHS : Z := 600%Z.

(** The local variables of [calculateSimulation] that the loop updates. *)
Module State.
Record t : Type := mk {
  balance : Q;
  totalInterest : Q;
  totalPaid : Q;
  cumulativePrincipal : Q;
  data : list MonthData.t;
  month : Z;
  isInfinite : bool
}.
End State.

(** How an iteration of the [while] loop ends: by [break], or by reaching
    the end of the body. *)
Inductive Flow : Type :=
| Break (s : State.t)
| Continue (s : State.t).

Definition monthlyRateOf (p : SimulationParams) : Q :=
  annualInterestRate p / 100 / 12.

(** State before the loop: the month-0 record has been pushed. *)
Definition initState (p : SimulationParams) : State.t :=
  let balance := initialBalance p in
  State.mk balance 0 0 0
    [ MonthData.mk 0 balance 0 0 0 0 0
        (calculateProjectedInterest balance (monthlyRepayment p)
           (annualInterestRate p)) ]
    0 false.

(** The loop condition [balance > 0 && month < MAX_MONTHS]. *)
Definition loopCond (s : State.t) : bool :=
  Qgt_bool (State.balance s) 0 && (State.month s <? MAX_MONTHS)%Z.

(** The runaway test [balance > initialBalance * 5 && balance > 1000000]. *)
Definition runaway (p : SimulationParams) (balance : Q) : bool :=
  Qgt_bool balance (initialBalance p * 5) && Qgt_bool balance 1000000.

(** "Apply changes" up to and including [data.push]: the state at the end
    of the month, before the termination conditions are looked at. *)
Definition applyMonth (p : SimulationParams) (s : State.t) : State.t :=
  let month := (State.month s + 1)%Z in
  let interest := floor (State.balance s * monthlyRateOf p) in
  let payment := paymentOf (State.balance s) interest (monthlyRepayment p) in
  let principal := payment - interest in
  let balance := State.balance s - principal + monthlyNewCharge p in
  let balance := if Qlt_bool balance 0 then 0 else balance in
  let totalInterest := State.totalInterest s + interest in
  let totalPaid := State.totalPaid s + payment in
  let cumulativePrincipal := State.cumulativePrincipal s + principal in
  let projectedInterest :=
    calculateProjectedInterest balance (monthlyRepayment p)
      (annualInterestRate p) in
  State.mk balance totalInterest totalPaid cumulativePrincipal
    (State.data s ++
       [ MonthData.mk month balance principal interest payment
           totalInterest cumulativePrincipal projectedInterest ])
    month (State.isInfinite s).

Definition setInfinite (s : State.t) : State.t :=
  State.mk (State.balance s) (State.totalInterest s) (State.totalPaid s)
    (State.cumulativePrincipal s) (State.data s) (State.month s) true.

(** The termination conditions 1, 2 and 3, in the order of the source. *)
Definition terminationChecks (p : SimulationParams) (prevBalance : Q)
    (s : State.t) : Flow :=
  let balance := State.balance s in
  if Qle_bool balance 0 then Break s
  else if Qlt_bool balance (monthlyRepayment p) then Break s
  else if Qgt_bool (monthlyNewCharge p) 0
          && Qle_bool (Qabs (balance - prevBalance)) 10
  then
    if Qle_bool balance (monthlyNewCharge p * 1.5) then Break s
    else if Qgt_bool balance (monthlyRepayment p) then Break (setInfinite s)
    else Continue s
  else Continue s.

(** The state at the runaway [break]: [month++] has run, [isInfinite] is
    set, nothing else has changed. *)
Definition runawayBreak (s : State.t) : State.t :=
  State.mk (State.balance s) (State.totalInterest s) (State.totalPaid s)
    (State.cumulativePrincipal s) (State.data s) (State.month s + 1)%Z true.

(** One iteration of the [while] body.  The month's interest, payment and
    principal depend on the state alone; [applyMonth] computes them where
    they are used. *)
Definition loopBody (p : SimulationParams) (s : State.t) : Flow :=
  if runaway p (State.balance s) then
    Break (runawayBreak s)
  else
    let prevBalance := State.balance s in
    terminationChecks p prevBalance (applyMonth p s).

(** The [while] loop.  [fuel] only makes the recursion structural: the loop
    leaves through its own condition or a [break] (see [whileLoop_fuel]). *)
Fixpoint whileLoop (fuel : nat) (p : SimulationParams) (s : State.t)
    : State.t :=
  match fuel with
  | O => s
  | S fuel' =>
      if loopCond s then
        match loopBody p s with
        | Break s' => s'
        | Continue s' => whileLoop fuel' p s'
        end
      else s
  end.

(** What follows the loop: the cap test and the returned object. *)
Definition finish (s : State.t) : SimulationResult.t :=
  let isInfinite :=
    if (State.month s >=? MAX_MONTHS)%Z then true else State.isInfinite s in
  SimulationResult.mk (State.data s) (State.totalInterest s)
    (State.totalPaid s) (State.month s) isInfinite.

Definition calculateSimulation (p : SimulationParams) : SimulationResult.t :=
  finish (whileLoop (Z.to_nat MAX_MONTHS) p (initState p)).

(** ** The loop seen from outside *)

(** The final state of the loop started by [calculateSimulation]. *)
Definition finalState (p : SimulationParams) : State.t :=
  whileLoop (Z.to_nat MAX_MONTHS) p (initState p).



(** ** The month applied: names for its parts *)

Definition interestOf (p : SimulationParams) (s : State.t) : Q :=
  floor (State.balance s * monthlyRateOf p).

Definition paymentFor (p : SimulationParams) (s : State.t) : Q :=
  paymentOf (State.balance s) (interestOf p s) (monthlyRepayment p).

Definition principalOf (p : SimulationParams) (s : State.t) : Q :=
  paymentFor p s - interestOf p s.

(** The balance before the safety floor. *)
Definition rawBalance (p : SimulationParams) (s : State.t) : Q :=
  State.balance s - principalOf p s + monthlyNewCharge p.

Definition newBalance (p : SimulationParams) (s : State.t) : Q :=
  if Qlt_bool (rawBalance p s) 0 then 0 else rawBalance p s.

(** The record pushed by the iteration that starts in [s]. *)
Definition monthRecord (p : SimulationParams) (s : State.t) : MonthData.t :=
  MonthData.mk (State.month s + 1)%Z (newBalance p s) (principalOf p s)
    (interestOf p s) (paymentFor p s)
    (State.totalInterest s + interestOf p s)
    (State.cumulativePrincipal s + principalOf p s)
    (calculateProjectedInterest (newBalance p s) (monthlyRepayment p)
       (annualInterestRate p)).

(** ** Notions used in the statements *)

(** The last record of a trajectory. *)
Definition lastRecord (l : list MonthData.t) : option MonthData.t :=
  nth_error l (length l - 1).

(** [R] relates every element of [l] to the next one. *)
Definition consecutive {A : Type} (R : A -> A -> Prop) (l : list A) : Prop :=
  forall (i : nat) (a b : A),
    nth_error l i = Some a -> nth_error l (S i) = Some b -> R a b.

Definition monthsAreIndices (l : list MonthData.t) : Prop :=
  forall (i : nat) (r : MonthData.t),
    nth_error l i = Some r -> MonthData.month r = Z.of_nat i.

(** The last record of the trajectory mirrors the running variables. *)
Definition books (s : State.t) : Prop :=
  exists last : MonthData.t,
    lastRecord (State.data s) = Some last /\
    MonthData.month last = State.month s /\
    MonthData.balance last = State.balance s /\
    MonthData.cumulativeInterest last = State.totalInterest s /\
    MonthData.cumulativePrincipal last = State.cumulativePrincipal s.


(** ** Parameters of the concrete runs *)

Definition scenarioA : SimulationParams := mkParams 300000 0 5000 18.

Definition scenarioC : SimulationParams := mkParams 1000000 0 1000 18.


Definition exactParams : SimulationParams := mkParams 2000 0 1000 0.


(** ** Values derived in [App] from the parameters and the result *)



(** The period card: [Math.floor(result.months / 12)] years and
    [result.months % 12] months. *)
Definition periodYears (result : SimulationResult.t) : Z :=
  (SimulationResult.months result / 12)%Z.

Definition periodMonths (result : SimulationResult.t) : Z :=
  Z.rem (SimulationResult.months result) 12.

(** ** Notions used in the further properties *)

(** The record's [remainingInterest] is the estimator at its balance. *)
Definition projectedAtBalance (p : SimulationParams) (r : MonthData.t) : Prop :=
  MonthData.remainingInterest r =
  calculateProjectedInterest (MonthData.balance r) (monthlyRepayment p)
    (annualInterestRate p).





(** ** Parameters of further concrete runs *)


(** * The same code on binary64 numbers

    The definitions of this module follow [src/App.tsx] line for line, as
    the definitions above do, with JavaScript's [number] taken as it is: an
    IEEE 754 binary64 value, with rounding after every operation, signed
    zeros, infinities and NaN.  The operators are Rocq's primitive floats;
    a comparison with NaN is false, as in JavaScript. *)

Module Binary64.
#[local] Open Scope float_scope.

(** [Math.floor].  Below 2^52 in absolute value, adding and removing 2^52
    rounds to an integer at most one away from the floor; from 2^52 on
    every binary64 value is an integer already, and NaN and the infinities
    are returned as they are. *)
Definition two52 : float := 4503599627370496.

Definition floor (x : float) : float :=
  if abs x <? two52 then
    let t := if x <? 0 then (x - two52) + two52 else (x + two52) - two52 in
    if t =? x then x else if x <? t then t - 1 else t
  else x.

(** [isNaN] *)
Definition isNaN (x : float) : bool := negb (x =? x).

(** [isFinite] *)
Definition isFinite (x : float) : bool := abs x <? infinity.

Record SimulationParams : Type := mkParams {
  initialBalance : float;
  monthlyNewCharge : float;
  monthlyRepayment : float;
  annualInterestRate : float
}.

Module MonthData.
Record t : Type := mk {
  month : Z;
  balance : float;
  principalPaid : float;
  interestPaid : float;
  totalPaid : float;
  cumulativeInterest : float;
  cumulativePrincipal : float;
  remainingInterest : float
}.
End MonthData.

Module SimulationResult.
Record t : Type := mk {
  data : list MonthData.t;
  totalInterest : float;
  totalPaid : float;
  months : Z;
  isInfinite : bool
}.
End SimulationResult.

(** ** [calculateProjectedInterest] *)

Definition MAX_PROJ_MONTHS : nat := 600%nat.

Definition paymentOf (balance interest monthlyRepayment : float) : float :=
  if balance + interest <=? monthlyRepayment
  then balance + interest
  else monthlyRepayment.

Fixpoint projectionLoop (n : nat) (monthlyRepayment monthlyRate : float)
    (currentBal totalInt : float) : float :=
  match n with
  | O => totalInt
  | S n' =>
      let interest := floor (currentBal * monthlyRate) in
      let payment := paymentOf currentBal interest monthlyRepayment in
      let principal := payment - interest in
      let currentBal := currentBal - principal in
      let totalInt := totalInt + interest in
      if currentBal <=? 0 then totalInt
      else projectionLoop n' monthlyRepayment monthlyRate currentBal totalInt
  end.

Definition calculateProjectedInterest
    (balance monthlyRepayment annualInterestRate : float) : float :=
  if balance <=? 0 then 0
  else
    let monthlyRate := annualInterestRate / 100 / 12 in
    projectionLoop MAX_PROJ_MONTHS monthlyRepayment monthlyRate balance 0.

(** ** [calculateSimulation] *)

Definition MAX_MONTHS : Z := 600%Z.

Module State.
Record t : Type := mk {
  balance : float;
  totalInterest : float;
  totalPaid : float;
  cumulativePrincipal : float;
  data : list MonthData.t;
  month : Z;
  isInfinite : bool
}.
End State.

Inductive Flow : Type :=
| Break (s : State.t)
| Continue (s : State.t).

Definition monthlyRateOf (p : SimulationParams) : float :=
  annualInterestRate p / 100 / 12.

Definition initState (p : SimulationParams) : State.t :=
  let balance := initialBalance p in
  State.mk balance 0 0 0
    [ MonthData.mk 0 balance 0 0 0 0 0
        (calculateProjectedInterest balance (monthlyRepayment p)
           (annualInterestRate p)) ]
    0 false.

(** [balance > 0 && month < MAX_MONTHS] *)
Definition loopCond (s : State.t) : bool :=
  (0 <? State.balance s) && (State.month s <? MAX_MONTHS)%Z.

(** [balance > initialBalance * 5 && balance > 1000000] *)
Definition runaway (p : SimulationParams) (balance : float) : bool :=
  (initialBalance p * 5 <? balance) && (1000000 <? balance).

(** The month's interest, payment and principal, and the new balance. *)
Definition interestOf (p : SimulationParams) (s : State.t) : float :=
  floor (State.balance s * monthlyRateOf p).

Definition paymentFor (p : SimulationParams) (s : State.t) : float :=
  paymentOf (State.balance s) (interestOf p s) (monthlyRepayment p).

Definition principalOf (p : SimulationParams) (s : State.t) : float :=
  paymentFor p s - interestOf p s.

(** [balance - principal + monthlyNewCharge], then the safety floor. *)
Definition rawBalance (p : SimulationParams) (s : State.t) : float :=
  State.balance s - principalOf p s + monthlyNewCharge p.

Definition newBalance (p : SimulationParams) (s : State.t) : float :=
  if rawBalance p s <? 0 then 0 else rawBalance p s.

(** The record pushed by the iteration that starts in [s]. *)
Definition monthRecord (p : SimulationParams) (s : State.t) : MonthData.t :=
  MonthData.mk (State.month s + 1)%Z (newBalance p s) (principalOf p s)
    (interestOf p s) (paymentFor p s)
    (State.totalInterest s + interestOf p s)
    (State.cumulativePrincipal s + principalOf p s)
    (calculateProjectedInterest (newBalance p s) (monthlyRepayment p)
       (annualInterestRate p)).

(** "Apply changes" up to and including [data.push]. *)
Definition applyMonth (p : SimulationParams) (s : State.t) : State.t :=
  State.mk (newBalance p s) (State.totalInterest s + interestOf p s)
    (State.totalPaid s + paymentFor p s)
    (State.cumulativePrincipal s + principalOf p s)
    (State.data s ++ [monthRecord p s]) (State.month s + 1)%Z
    (State.isInfinite s).

Definition setInfinite (s : State.t) : State.t :=
  State.mk (State.balance s) (State.totalInterest s) (State.totalPaid s)
    (State.cumulativePrincipal s) (State.data s) (State.month s) true.

(** The termination conditions 1, 2 and 3, in the order of the source. *)
Definition terminationChecks (p : SimulationParams) (prevBalance : float)
    (s : State.t) : Flow :=
  let balance := State.balance s in
  if balance <=? 0 then Break s
  else if balance <? monthlyRepayment p then Break s
  else if (0 <? monthlyNewCharge p)
          && (abs (balance - prevBalance) <=? 10)
  then
    if balance <=? monthlyNewCharge p * 1.5 then Break s
    else if monthlyRepayment p <? balance then Break (setInfinite s)
    else Continue s
  else Continue s.

Definition runawayBreak (s : State.t) : State.t :=
  State.mk (State.balance s) (State.totalInterest s) (State.totalPaid s)
    (State.cumulativePrincipal s) (State.data s) (State.month s + 1)%Z true.

(** One iteration of the [while] body. *)
Definition loopBody (p : SimulationParams) (s : State.t) : Flow :=
  if runaway p (State.balance s) then Break (runawayBreak s)
  else
    let prevBalance := State.balance s in
    terminationChecks p prevBalance (applyMonth p s).

Fixpoint whileLoop (fuel : nat) (p : SimulationParams) (s : State.t)
    : State.t :=
  match fuel with
  | O => s
  | S fuel' =>
      if loopCond s then
        match loopBody p s with
        | Break s' => s'
        | Continue s' => whileLoop fuel' p s'
        end
      else s
  end.

Definition finish (s : State.t) : SimulationResult.t :=
  let isInfinite :=
    if (State.month s >=? MAX_MONTHS)%Z then true else State.isInfinite s in
  SimulationResult.mk (State.data s) (State.totalInterest s)
    (State.totalPaid s) (State.month s) isInfinite.

Definition calculateSimulation (p : SimulationParams) : SimulationResult.t :=
  finish (whileLoop (Z.to_nat MAX_MONTHS) p (initState p)).

End Binary64.

(** ** Notions used in the statements on binary64 numbers *)

Module Binary64Notions.
Import Binary64.
#[local] Open Scope float_scope.

(** The final state of the loop started by [calculateSimulation]. *)
Definition finalState (p : SimulationParams) : State.t :=
  whileLoop (Z.to_nat MAX_MONTHS) p (initState p).

(** The [while] loop as a relation: [iterates p n s s'] when the loop
    started in [s] leaves in [s'] after entering its body [n] times. *)
Inductive iterates (p : SimulationParams) : nat -> State.t -> State.t -> Prop :=
| iterates_exit (s : State.t) :
    loopCond s = false -> iterates p 0 s s
| iterates_break (s s' : State.t) :
    loopCond s = true -> loopBody p s = Break s' -> iterates p 1 s s'
| iterates_continue (n : nat) (s s' s'' : State.t) :
    loopCond s = true -> loopBody p s = Continue s' ->
    iterates p n s' s'' -> iterates p (S n) s s''.

(** The last record of a trajectory. *)
Definition lastRecord (l : list MonthData.t) : option MonthData.t :=
  nth_error l (length l - 1).

(** The last record of the trajectory mirrors the running variables. *)
Definition books (s : State.t) : Prop :=
  exists last : MonthData.t,
    lastRecord (State.data s) = Some last /\
    MonthData.month last = State.month s /\
    MonthData.balance last = State.balance s /\
    MonthData.cumulativeInterest last = State.totalInterest s /\
    MonthData.cumulativePrincipal last = State.cumulativePrincipal s.

(** Termination condition 3, first branch, read on the trajectory. *)
Definition lowSteadyState (p : SimulationParams) (l : list MonthData.t) : Prop :=
  (0 <? monthlyNewCharge p) = true /\
  exists (pre : list MonthData.t) (prev last : MonthData.t),
    l = pre ++ [prev; last] /\
    (abs (MonthData.balance last - MonthData.balance prev) <=? 10) = true /\
    (MonthData.balance last <=? monthlyNewCharge p * 1.5) = true /\
    (MonthData.balance last <? monthlyRepayment p) = false.

(** From one record to the next the running totals add the month's
    amounts, and the month's principal is its payment less its interest
    (sums and difference of binary64 numbers). *)
Definition totalsStep (a b : MonthData.t) : Prop :=
  MonthData.cumulativeInterest b
    = MonthData.cumulativeInterest a + MonthData.interestPaid b /\
  MonthData.cumulativePrincipal b
    = MonthData.cumulativePrincipal a + MonthData.principalPaid b /\
  MonthData.principalPaid b = MonthData.totalPaid b - MonthData.interestPaid b.

(** The sum of a field over the trajectory, added from the left as the
    loop adds it. *)
Definition sumOf (field : MonthData.t -> float) (l : list MonthData.t) : float :=
  fold_left (fun acc r => acc + field r) l 0.

(** With a zero rate: a month that starts from a finite balance costs no
    interest. *)
Definition noInterestStep (a b : MonthData.t) : Prop :=
  isFinite (MonthData.balance a) = true ->
  (MonthData.interestPaid b =? 0) = true.

(** With a zero charge: the balance is the previous one less the principal
    paid, floored at zero (unless that difference is NaN). *)
Definition noChargeStep (a b : MonthData.t) : Prop :=
  let x := MonthData.balance a - MonthData.principalPaid b in
  isNaN x = false ->
  (MonthData.balance b =? (if x <? 0 then 0 else x)) = true.

(** How a run that is not classified infinite may end: the last balance,
    when it is a number, is at most the repayment, or zero, or the run has
    stopped in the low steady state. *)
Definition endsCleared (p : SimulationParams) (l : list MonthData.t) : Prop :=
  exists last : MonthData.t,
    lastRecord l = Some last /\
    (isNaN (MonthData.balance last) = false ->
     (MonthData.balance last <=? monthlyRepayment p) = true \/
     (MonthData.balance last =? 0) = true \/
     lowSteadyState p l).

(** The ledger kept by the loop: each month's principal is its payment less
    its interest, the running totals are the sums of the records' fields,
    and the last record carries the two cumulative totals. *)
Definition ledgerSums (s : State.t) : Prop :=
  Forall (fun r => (1 <= MonthData.month r)%Z ->
                   MonthData.principalPaid r
                   = MonthData.totalPaid r - MonthData.interestPaid r)
    (State.data s) /\
  State.totalPaid s = sumOf MonthData.totalPaid (State.data s) /\
  State.totalInterest s = sumOf MonthData.interestPaid (State.data s) /\
  State.cumulativePrincipal s = sumOf MonthData.principalPaid (State.data s) /\
  exists last : MonthData.t,
    lastRecord (State.data s) = Some last /\
    MonthData.cumulativeInterest last = State.totalInterest s /\
    MonthData.cumulativePrincipal last = State.cumulativePrincipal s.

(** The ledger of a run at a zero rate. *)
Definition zeroRateLedger (s : State.t) : Prop :=
  consecutive noInterestStep (State.data s) /\
  (exists last : MonthData.t,
     lastRecord (State.data s) = Some last /\
     MonthData.balance last = State.balance s) /\
  (Forall (fun r => isFinite (MonthData.balance r) = true) (State.data s) ->
   (State.totalInterest s =? 0) = true).

(** With a charge that is not positive: the balance does not exceed the
    previous one less the principal paid, floored at zero (as long as it is
    a number). *)
Definition noGrowthStep (a b : MonthData.t) : Prop :=
  let x := MonthData.balance a - MonthData.principalPaid b in
  isNaN (MonthData.balance b) = false ->
  (MonthData.balance b <=? (if x <? 0 then 0 else x)) = true.

(** A record follows from the one before it by the rule of the loop. *)
Definition followsRule (p : SimulationParams) (a b : MonthData.t) : Prop :=
  let interest :=
    floor (MonthData.balance a * (annualInterestRate p / 100 / 12)) in
  let payment :=
    if MonthData.balance a + interest <=? monthlyRepayment p
    then MonthData.balance a + interest else monthlyRepayment p in
  let principal := payment - interest in
  let raw := MonthData.balance a - principal + monthlyNewCharge p in
  (0 <? MonthData.balance a) = true /\
  MonthData.month b = (MonthData.month a + 1)%Z /\
  MonthData.interestPaid b = interest /\
  MonthData.totalPaid b = payment /\
  MonthData.principalPaid b = principal /\
  MonthData.balance b = (if raw <? 0 then 0 else raw) /\
  MonthData.cumulativeInterest b = MonthData.cumulativeInterest a + interest /\
  MonthData.cumulativePrincipal b
    = MonthData.cumulativePrincipal a + principal /\
  MonthData.remainingInterest b
    = calculateProjectedInterest (MonthData.balance b) (monthlyRepayment p)
        (annualInterestRate p).

(** A number that is not negative, or not a number at all. *)
Definition nonnegOrNaN (x : float) : Prop :=
  (0 <=? x) = true \/ isNaN x = true.

(** *** The recurrence of the specification, for comparison *)

Record Round : Type := mkRound {
  roundBalance : float;
  roundInterest : float;
  roundDone : bool
}.

(** One round: interest on the balance, payment capped at balance +
    interest, balance lowered by payment - interest, interest added to the
    sum; nothing once the balance has been cleared. *)
Definition recurrenceRound (interestOn : float -> float)
    (monthlyRepayment : float) (st : Round) : Round :=
  if roundDone st then st
  else
    let interest := interestOn (roundBalance st) in
    let payment :=
      if roundBalance st + interest <=? monthlyRepayment
      then roundBalance st + interest else monthlyRepayment in
    let balance := roundBalance st - (payment - interest) in
    mkRound balance (roundInterest st + interest) (balance <=? 0).

(** At most 600 rounds, and the interest summed by then. *)
Definition recurrence (interestOn : float -> float)
    (balance monthlyRepayment : float) : float :=
  roundInterest
    (Nat.iter 600 (recurrenceRound interestOn monthlyRepayment)
       (mkRound balance 0 false)).

(** The interest of a round as the specification words it,
    floor(balance * annualInterestRate / 100 / 12) ... *)
Definition claimedInterest (annualInterestRate balance : float) : float :=
  floor (balance * annualInterestRate / 100 / 12).

(** ... and as the code computes it: the monthly rate first. *)
Definition hoistedInterest (annualInterestRate balance : float) : float :=
  let monthlyRate := annualInterestRate / 100 / 12 in
  floor (balance * monthlyRate).

(** *** Notions for the rounding of binary64 sums *)

(** The weight of an exponent, counted from the smallest one, -1074. *)
Definition scale (e : Z) : Z := (2 ^ (e + 1074))%Z.

(** Some bit has been lost by the shifts recorded in [mrs]. *)
Definition inexact (mrs : shr_record) : bool := shr_r mrs || shr_s mrs.

(** [b] is [a] shifted right by [k] bits. *)
Definition shifted (k : Z) (a b : shr_record) : Prop :=
  (0 <= shr_m b /\
   2 ^ k * shr_m b <= shr_m a < 2 ^ k * (shr_m b + 1) /\
   (inexact b = true -> inexact a = true \/ 2 ^ k * shr_m b < shr_m a))%Z.

(** *** Amounts in whole units *)

(** The integer that a binary64 number is, if it is one. *)
Definition integerValue (x : float) : option Z :=
  match Prim2SF x with
  | S754_zero _ => Some 0%Z
  | S754_finite s m e =>
      if (0 <=? e)%Z then Some (cond_Zopp s (Zpos m * 2 ^ e))%Z
      else if (Zpos m mod 2 ^ (- e) =? 0)%Z
           then Some (cond_Zopp s (Zpos m / 2 ^ (- e)))%Z
           else None
  | _ => None
  end.

(** An amount in whole units, of magnitude at most 2^51. *)
Definition isWhole (x : float) : bool :=
  match integerValue x with
  | Some n => (Z.abs n <=? 2 ^ 51)%Z
  | None => false
  end.

(** [r] is the integer [n]. *)
Definition SFrepresents (r : spec_float) (n : Z) : Prop :=
  match r with
  | S754_zero _ => n = 0%Z
  | S754_finite s m e => (cond_Zopp s (Zpos m * scale e) = n * scale 0)%Z
  | _ => False
  end.

Definition represents (x : float) (n : Z) : Prop := SFrepresents (Prim2SF x) n.

(** A record whose monthly amounts and cumulative totals are whole units. *)
Definition wholeRecord (r : MonthData.t) : bool :=
  isWhole (MonthData.interestPaid r) && isWhole (MonthData.totalPaid r)
  && isWhole (MonthData.cumulativeInterest r)
  && isWhole (MonthData.cumulativePrincipal r).

(** With whole amounts in every record, the running totals are the integers
    they stand for, and what has been paid is interest plus principal. *)
Definition exactLedger (s : State.t) : Prop :=
  forallb wholeRecord (State.data s) = true ->
  exists ni np : Z,
    represents (State.totalInterest s) ni /\
    represents (State.cumulativePrincipal s) np /\
    represents (State.totalPaid s) (ni + np) /\
    (Z.abs ni <= 2 ^ 51)%Z /\ (Z.abs np <= 2 ^ 51)%Z.

(** Parameters of concrete runs. *)
Definition scenarioA : SimulationParams := mkParams 300000 0 5000 18.
Definition steadyParams : SimulationParams := mkParams 1200 1000 1000 0.
Definition scenarioC : SimulationParams := mkParams 1000000 0 1000 18.
Definition negativeRateParams : SimulationParams := mkParams 1000 0 100 (-12).
Definition fractionParams : SimulationParams := mkParams 1000 2000000 0.1 12.
Definition overflowParams : SimulationParams := mkParams 1e308 1e308 0 0.
Definition exactParams : SimulationParams := mkParams 2000 0 1000 0.

End Binary64Notions.

(** * Properties *)

(** ** Concrete runs *)

Example scenarioA_months :
  SimulationResult.months (calculateSimulation scenarioA) = 154%Z.
Proof. vm_compute. reflexivity. Qed.

(** Scenario B of the specification: nothing to repay, nothing simulated. *)
Example scenarioB_immediate :
  let r := calculateSimulation (mkParams 0 0 5000 18) in
  SimulationResult.months r = 0%Z /\
  SimulationResult.totalInterest r = 0 /\
  SimulationResult.totalPaid r = 0 /\
  SimulationResult.isInfinite r = false /\
  length (SimulationResult.data r) = 1%nat.
Proof. vm_compute. repeat split. Qed.

(** Scenario C of the specification: a repayment below the first month's
    interest ends in [isInfinite = true]. *)
Example scenarioC_infinite :
  SimulationResult.isInfinite (calculateSimulation scenarioC) = true.
Proof. vm_compute. reflexivity. Qed.

(** ** Boolean tests on numbers *)





Lemma Qgt_bool_false (x y : Q) : Qgt_bool x y = false <-> x <= y.
Proof. unfold Qgt_bool. rewrite negb_false_iff. apply Qle_bool_iff. Qed.


(** ** The loop: fuel, reachable states and the invariant rule *)

Lemma loopCond_month (s : State.t) :
  loopCond s = true -> (State.month s < MAX_MONTHS)%Z.
Proof.
  unfold loopCond. intro H. apply andb_true_iff in H. destruct H as [_ H].
  now apply Z.ltb_lt in H.
Qed.

Lemma terminationChecks_state (p : SimulationParams) (b : Q) (s s' : State.t) :
  terminationChecks p b s = Continue s' -> s' = s.
Proof.
  unfold terminationChecks. intro H.
  repeat match type of H with
  | (if ?c then _ else _) = _ => destruct c
  end; congruence.
Qed.

Lemma loopBody_Continue (p : SimulationParams) (s s' : State.t) :
  loopBody p s = Continue s' ->
  runaway p (State.balance s) = false /\ s' = applyMonth p s.
Proof.
  unfold loopBody. destruct (runaway p (State.balance s)); [discriminate|].
  intro H. split; [reflexivity|]. now apply terminationChecks_state in H.
Qed.

Lemma loopBody_Continue_month (p : SimulationParams) (s s' : State.t) :
  loopBody p s = Continue s' -> State.month s' = (State.month s + 1)%Z.
Proof. intro H. apply loopBody_Continue in H. destruct H as [_ ->]. reflexivity. Qed.


(** Hoare-style rule for the loop: [I] is kept by every iteration that
    reaches the end of the body, and [Post] holds however the loop is left. *)
Lemma whileLoop_rule (p : SimulationParams) (I Post : State.t -> Prop) :
  (forall s s', I s -> loopCond s = true -> loopBody p s = Continue s' -> I s') ->
  (forall s s', I s -> loopCond s = true -> loopBody p s = Break s' -> Post s') ->
  (forall s, I s -> loopCond s = false -> Post s) ->
  forall (fuel : nat) (s : State.t),
    (MAX_MONTHS - State.month s <= Z.of_nat fuel)%Z ->
    I s -> Post (whileLoop fuel p s).
Proof.
  intros Hcont Hbreak Hexit. induction fuel as [|fuel IH]; intros s Hm Hs.
  - simpl. apply Hexit; [assumption|].
    destruct (loopCond s) eqn:Hc; [|reflexivity].
    apply loopCond_month in Hc. lia.
  - simpl. destruct (loopCond s) eqn:Hc; [|now apply Hexit].
    destruct (loopBody p s) as [s'|s'] eqn:Hb.
    + now apply (Hbreak s).
    + apply IH.
      * apply loopBody_Continue_month in Hb. lia.
      * now apply (Hcont s).
Qed.

Lemma finalState_rule (p : SimulationParams) (I Post : State.t -> Prop) :
  I (initState p) ->
  (forall s s', I s -> loopCond s = true -> loopBody p s = Continue s' -> I s') ->
  (forall s s', I s -> loopCond s = true -> loopBody p s = Break s' -> Post s') ->
  (forall s, I s -> loopCond s = false -> Post s) ->
  Post (finalState p).
Proof.
  intros Hinit Hcont Hbreak Hexit. unfold finalState.
  apply (whileLoop_rule p I Post); try assumption.
  change (State.month (initState p)) with 0%Z. unfold MAX_MONTHS. lia.
Qed.



(** The ways an iteration can go, read on the result. *)
Lemma whileLoop_exit (p : SimulationParams) (fuel : nat) (s : State.t) :
  loopCond s = false -> whileLoop fuel p s = s.
Proof. intro Hc. destruct fuel; simpl; [|rewrite Hc]; reflexivity. Qed.



(** What an iteration returns: the runaway [break], or the month applied
    and then one of the outcomes of the termination conditions. *)
Lemma loopBody_cases (p : SimulationParams) (s : State.t) :
  (runaway p (State.balance s) = true /\
   loopBody p s = Break (runawayBreak s)) \/
  (runaway p (State.balance s) = false /\
   (loopBody p s = Continue (applyMonth p s) \/
    loopBody p s = Break (applyMonth p s) \/
    loopBody p s = Break (setInfinite (applyMonth p s)))).
Proof.
  unfold loopBody. destruct (runaway p (State.balance s)).
  - left. split; reflexivity.
  - right. split; [reflexivity|]. unfold terminationChecks.
    repeat match goal with
    | |- context [if ?c then _ else _] => destruct c
    end; auto.
Qed.


(** Rule for properties of the ledger (balance, totals and trajectory):
    they do not see the month counter nor the flag, so it is enough that
    the month-0 state has them and that applying a month keeps them. *)
Lemma ledger_rule (p : SimulationParams) (I : State.t -> Prop) :
  (forall s m b, I s ->
     I (State.mk (State.balance s) (State.totalInterest s) (State.totalPaid s)
          (State.cumulativePrincipal s) (State.data s) m b)) ->
  I (initState p) ->
  (forall s, I s -> loopCond s = true -> runaway p (State.balance s) = false ->
     I (applyMonth p s)) ->
  I (finalState p).
Proof.
  intros Hframe Hinit Hstep.
  apply (finalState_rule p I I); [assumption| | |auto].
  - intros s s' Hs Hc Hb. apply loopBody_Continue in Hb.
    destruct Hb as [Hr ->]. now apply Hstep.
  - intros s s' Hs Hc Hb.
    destruct (loopBody_cases p s) as [[_ E]|[Hr [E|[E|E]]]];
      rewrite E in Hb; inversion Hb; subst s'.
    + apply (Hframe s). assumption.
    + now apply Hstep.
    + apply (Hframe (applyMonth p s)). now apply Hstep.
Qed.

Lemma applyMonth_eq (p : SimulationParams) (s : State.t) :
  applyMonth p s =
  State.mk (newBalance p s) (State.totalInterest s + interestOf p s)
    (State.totalPaid s + paymentFor p s)
    (State.cumulativePrincipal s + principalOf p s)
    (State.data s ++ [monthRecord p s]) (State.month s + 1)%Z
    (State.isInfinite s).
Proof. reflexivity. Qed.

(** ** Facts on lists built by [push] *)

Section Trajectory.
Context {A : Type}.

Lemma consecutive_single (R : A -> A -> Prop) (x : A) : consecutive R [x].
Proof. intros i a b _ H. destruct i; discriminate. Qed.

Lemma nth_error_snoc_last (l : list A) (x : A) :
  nth_error (l ++ [x]) (length l) = Some x.
Proof. rewrite nth_error_app2 by lia. now rewrite Nat.sub_diag. Qed.

Lemma nth_error_snoc (l : list A) (x : A) (i : nat) (a : A) :
  nth_error (l ++ [x]) i = Some a ->
  (i < length l /\ nth_error l i = Some a)%nat \/ (i = length l /\ a = x).
Proof.
  intro H. destruct (Nat.lt_ge_cases i (length l)) as [Hi|Hi].
  - left. split; [assumption|]. now rewrite nth_error_app1 in H.
  - right. rewrite nth_error_app2 in H by assumption.
    destruct (i - length l)%nat as [|k] eqn:E.
    + simpl in H. split; [lia|congruence].
    + simpl in H. destruct k; discriminate.
Qed.

Lemma consecutive_push (R : A -> A -> Prop) (l : list A) (r x : A) :
  consecutive R (l ++ [r]) -> R r x -> consecutive R ((l ++ [r]) ++ [x]).
Proof.
  intros Hl Hrx i a b Ha Hb.
  apply nth_error_snoc in Hb. destruct Hb as [[Hi Hb]|[Hi ->]].
  - apply nth_error_snoc in Ha. destruct Ha as [[_ Ha]|[Hi' _]]; [|lia].
    exact (Hl i a b Ha Hb).
  - assert (E : i = length l) by (rewrite length_app in Hi; simpl in Hi; lia).
    subst i. rewrite <- app_assoc in Ha. rewrite nth_error_app2 in Ha by lia.
    rewrite Nat.sub_diag in Ha. simpl in Ha. now inversion Ha; subst.
Qed.
End Trajectory.


(** ** The estimator on a cleared balance *)

(** C9: for every balance <= 0, and every monthlyRepayment and
    annualInterestRate, calculateProjectedInterest returns 0 at once (the
    loop is not entered). *)
Theorem projected_interest_nonpositive_balance
    (balance monthlyRepayment annualInterestRate : Q)
    (Hbal : balance <= 0) :
  calculateProjectedInterest balance monthlyRepayment annualInterestRate = 0.
Proof.
  unfold calculateProjectedInterest.
  apply Qle_bool_iff in Hbal. rewrite Hbal. reflexivity.
Qed.

Lemma projected_interest_nonpositive_balance_witness :
  -2500 <= 0 /\ calculateProjectedInterest (-2500) 5000 18 = 0.
Proof.
  split.
  - discriminate.
  - apply (projected_interest_nonpositive_balance (-2500) 5000 18).
    discriminate.
Defined.

(** ** Scenario A *)

(** C6: with initialBalance = 300000, monthlyNewCharge = 0,
    monthlyRepayment = 5000 and annualInterestRate = 18, the month-1 record
    has interestPaid = floor(300000 * 18 / 100 / 12) = 4500,
    principalPaid = 500 and balance = 299500. *)
Theorem scenarioA_month1 :
  exists r : MonthData.t,
    nth_error (SimulationResult.data (calculateSimulation scenarioA)) 1 = Some r /\
    MonthData.month r = 1%Z /\
    MonthData.interestPaid r == floor (300000 * 18 / 100 / 12) /\
    MonthData.interestPaid r == 4500 /\
    MonthData.principalPaid r == 500 /\
    MonthData.balance r == 299500.
Proof.
  eexists. split; [vm_compute; reflexivity|].
  repeat split; vm_compute; reflexivity.
Qed.

(** ** Month numbering *)

Lemma monthsAreIndices_push (l : list MonthData.t) (x : MonthData.t) :
  monthsAreIndices l -> MonthData.month x = Z.of_nat (length l) ->
  monthsAreIndices (l ++ [x]).
Proof.
  intros Hl Hx i r Hr. apply nth_error_snoc in Hr.
  destruct Hr as [[_ Hr]|[-> ->]]; [now apply Hl|assumption].
Qed.

Lemma trajectory_numbering (p : SimulationParams) :
  monthsAreIndices (State.data (finalState p)) /\
  exists r0 tl,
    State.data (finalState p) = r0 :: tl /\
    MonthData.month r0 = 0%Z /\ MonthData.balance r0 = initialBalance p.
Proof.
  set (D := fun l : list MonthData.t =>
              monthsAreIndices l /\
              exists r0 tl, l = r0 :: tl /\ MonthData.month r0 = 0%Z /\
                            MonthData.balance r0 = initialBalance p).
  assert (Hpush : forall s, D (State.data s) ->
            Z.of_nat (length (State.data s)) = (State.month s + 1)%Z ->
            D (State.data (applyMonth p s))).
  { intros s [Hidx (r0 & tl & E & H0 & Hb)] Hlen.
    rewrite applyMonth_eq. cbn [State.data]. split.
    - apply monthsAreIndices_push; [assumption|].
      cbn [monthRecord MonthData.month]. lia.
    - exists r0, (tl ++ [monthRecord p s]). rewrite E. auto. }
  apply (finalState_rule p
           (fun s => D (State.data s) /\
                     Z.of_nat (length (State.data s)) = (State.month s + 1)%Z)
           (fun s => D (State.data s))).
  - split; [split|reflexivity].
    + intros [|[|i]] r H; simpl in H; try discriminate.
      inversion H; subst r. reflexivity.
    + eexists _, []. simpl. auto.
  - intros s s' [Hd Hlen] _ Hb. apply loopBody_Continue in Hb.
    destruct Hb as [_ ->]. split; [now apply Hpush|].
    rewrite applyMonth_eq. cbn [State.data State.month].
    rewrite length_app. simpl. lia.
  - intros s s' [Hd Hlen] _ Hb.
    destruct (loopBody_cases p s) as [[_ E]|[_ [E|[E|E]]]];
      rewrite E in Hb; inversion Hb; subst s';
      first [exact Hd | now apply Hpush].
  - intros s [Hd _] _. exact Hd.
Qed.

(** C8: the trajectory is in increasing month order: trajectory[i].month is
    i for every index i, and trajectory[0] exists, with month 0 and
    balance equal to initialBalance. *)
Theorem trajectory_months_are_indices
    (p : SimulationParams) (i : nat) (r : MonthData.t)
    (Hr : nth_error (SimulationResult.data (calculateSimulation p)) i = Some r) :
  MonthData.month r = Z.of_nat i /\
  exists r0 : MonthData.t,
    nth_error (SimulationResult.data (calculateSimulation p)) 0 = Some r0 /\
    MonthData.month r0 = 0%Z /\
    MonthData.balance r0 = initialBalance p.
Proof.
  destruct (trajectory_numbering p) as [Hidx (r0 & tl & E & H0 & Hb)].
  unfold calculateSimulation in *. fold (finalState p) in *. simpl in *.
  split; [now apply Hidx|].
  exists r0. rewrite E. auto.
Qed.

Lemma trajectory_months_are_indices_witness :
  exists r : MonthData.t,
    nth_error (SimulationResult.data (calculateSimulation scenarioA)) 7 = Some r /\
    MonthData.month r = 7%Z.
Proof.
  eexists. split.
  - vm_compute. reflexivity.
  - refine (proj1 (trajectory_months_are_indices scenarioA 7 _ _)).
    vm_compute. reflexivity.
Defined.

(** ** Arithmetic of one month *)





(** ** Book-keeping of the loop *)




(** ** The runaway guard *)



(** ** The last record of a trajectory *)


(** ** The loop body when the runaway guard does not fire *)


(** ** A balance that lands on the monthly repayment *)









(** ** [floor] and equality of rationals *)


(** * Further properties of the code *)

(** ** Shape of the result *)

Lemma finalState_shape (p : SimulationParams) :
  (0 <= State.month (finalState p) <= MAX_MONTHS)%Z /\
  (Z.of_nat (length (State.data (finalState p)))
     = (State.month (finalState p) + 1)%Z \/
   (State.isInfinite (finalState p) = true /\
    (1 <= State.month (finalState p))%Z /\
    Z.of_nat (length (State.data (finalState p))) = State.month (finalState p))).
Proof.
  apply (finalState_rule p
    (fun s => (0 <= State.month s <= MAX_MONTHS)%Z /\
              Z.of_nat (length (State.data s)) = (State.month s + 1)%Z)
    (fun s => (0 <= State.month s <= MAX_MONTHS)%Z /\
              (Z.of_nat (length (State.data s)) = (State.month s + 1)%Z \/
               (State.isInfinite s = true /\ (1 <= State.month s)%Z /\
                Z.of_nat (length (State.data s)) = State.month s)))).
  - split; [|reflexivity]. cbn. unfold MAX_MONTHS. lia.
  - intros s s' [Hm Hl] Hc Hb. apply loopCond_month in Hc.
    apply loopBody_Continue in Hb. destruct Hb as [_ ->].
    rewrite applyMonth_eq. cbn [State.month State.data].
    rewrite length_app. cbn [length]. lia.
  - intros s s' [Hm Hl] Hc Hb. apply loopCond_month in Hc.
    destruct (loopBody_cases p s) as [[_ E]|[_ [E|[E|E]]]];
      rewrite E in Hb; inversion Hb; subst s'.
    + unfold runawayBreak. cbn. split; [lia|]. right. repeat split; lia.
    + rewrite applyMonth_eq. cbn [State.month State.data].
      rewrite length_app. cbn [length]. split; [lia|]. left. lia.
    + rewrite applyMonth_eq. cbn [setInfinite State.month State.data].
      rewrite length_app. cbn [length]. split; [lia|]. left. lia.
  - intros s [Hm Hl] _. split; [assumption|]. now left.
Qed.

(** X1: the run is bounded.  months is between 0 and 600 and the trajectory
    has months + 1 records (at most 601), except after the runaway break,
    where isInfinite is set and the trajectory has months records; and a run
    whose months reach 600 is always classified infinite. *)
Theorem result_is_bounded (p : SimulationParams) :
  let r := calculateSimulation p in
  (0 <= SimulationResult.months r <= 600)%Z /\
  (Z.of_nat (length (SimulationResult.data r)) = (SimulationResult.months r + 1)%Z \/
   (SimulationResult.isInfinite r = true /\
    Z.of_nat (length (SimulationResult.data r)) = SimulationResult.months r)) /\
  (1 <= length (SimulationResult.data r) <= 601)%nat /\
  ((SimulationResult.months r < 600)%Z \/ SimulationResult.isInfinite r = true).
Proof.
  cbv zeta. unfold calculateSimulation. fold (finalState p).
  destruct (finalState_shape p) as [Hm Hl]. unfold MAX_MONTHS in Hm.
  cbn [finish SimulationResult.months SimulationResult.data
       SimulationResult.isInfinite].
  split; [exact Hm|]. split; [|split].
  - destruct Hl as [Hl|(Hi & _ & Hl)]; [now left|]. right. split; [|exact Hl].
    rewrite Hi. destruct (State.month (finalState p) >=? MAX_MONTHS)%Z; reflexivity.
  - destruct Hl as [Hl|(_ & H1 & Hl)]; lia.
  - destruct (State.month (finalState p) >=? MAX_MONTHS)%Z eqn:E; [now right|].
    left. rewrite Z.geb_leb in E. apply Z.leb_gt in E. unfold MAX_MONTHS in E. lia.
Qed.

(** ** The projection shown with each record *)

Lemma projectedAtBalance_final (p : SimulationParams) :
  Forall (projectedAtBalance p) (State.data (finalState p)).
Proof.
  apply (ledger_rule p (fun s => Forall (projectedAtBalance p) (State.data s))).
  - intros s m b H. exact H.
  - constructor; [|constructor]. reflexivity.
  - intros s Hall _ _. rewrite applyMonth_eq. cbn [State.data].
    apply Forall_app. split; [assumption|].
    constructor; [|constructor]. reflexivity.
Qed.

(** X3: the remainingInterest of every record of the trajectory is
    calculateProjectedInterest at that record's balance, with the run's
    monthlyRepayment and annualInterestRate. *)
Theorem remaining_interest_is_projection (p : SimulationParams) :
  Forall (projectedAtBalance p)
    (SimulationResult.data (calculateSimulation p)).
Proof. exact (projectedAtBalance_final p). Qed.

(** ** The principal part of a payment *)



(** ** The floor at zero without negative charges *)


(** ** The analysis text: paid, borrowed, interest *)


(** ** The first month's interest *)




(** ** A repayment above the first month's interest *)










(** ** The estimator along a run without new charges *)











(** ** The period card *)

Lemma result_shape (p : SimulationParams) :
  (0 <= SimulationResult.months (calculateSimulation p) <= 600)%Z /\
  ((SimulationResult.months (calculateSimulation p) < 600)%Z \/
   SimulationResult.isInfinite (calculateSimulation p) = true).
Proof.
  unfold calculateSimulation. fold (finalState p).
  destruct (finalState_shape p) as [Hm _]. unfold MAX_MONTHS in Hm.
  cbn [finish SimulationResult.months SimulationResult.isInfinite].
  split; [exact Hm|].
  destruct (State.month (finalState p) >=? MAX_MONTHS)%Z eqn:E; [now right|].
  left. rewrite Z.geb_leb in E. apply Z.leb_gt in E. exact E.
Qed.

(** X16: the period shown for a result recomposes its months:
    months = 12 * years + months-of-year with 0 <= months-of-year < 12, and
    the years are between 0 and 50, below 50 unless the run is classified
    infinite. *)
Theorem period_display (p : SimulationParams) :
  let r := calculateSimulation p in
  SimulationResult.months r = (12 * periodYears r + periodMonths r)%Z /\
  (0 <= periodMonths r < 12)%Z /\
  (0 <= periodYears r <= 50)%Z /\
  (SimulationResult.isInfinite r = true \/ (periodYears r <= 49)%Z).
Proof.
  cbv zeta. destruct (result_shape p) as (Hm & Hcap).
  unfold periodYears, periodMonths.
  rewrite Z.rem_mod_nonneg by lia.
  set (m := SimulationResult.months (calculateSimulation p)) in *.
  assert (Hdiv : m = (12 * (m / 12) + m mod 12)%Z) by (apply Z.div_mod; lia).
  assert (Hmod : (0 <= m mod 12 < 12)%Z) by (apply Z.mod_pos_bound; lia).
  split; [exact Hdiv|]. split; [exact Hmod|]. split; [lia|].
  destruct Hcap as [Hlt|Hinf]; [right; lia|now left].
Qed.

(** ** Why a run is classified infinite *)






(** ** Edge cases of the run *)

(** X19: with initialBalance <= 0 nothing is simulated: the result has the
    month-0 record alone, with remainingInterest 0, zero totals, months = 0
    and isInfinite = false. *)
Theorem nothing_to_repay (p : SimulationParams)
    (Hbal : initialBalance p <= 0) :
  calculateSimulation p =
  SimulationResult.mk [MonthData.mk 0 (initialBalance p) 0 0 0 0 0 0] 0 0 0 false.
Proof.
  unfold calculateSimulation. rewrite whileLoop_exit.
  - unfold finish, initState, calculateProjectedInterest.
    apply Qle_bool_iff in Hbal. rewrite Hbal. reflexivity.
  - unfold loopCond, initState. cbn [State.balance].
    apply andb_false_iff. left. now apply Qgt_bool_false.
Qed.

Lemma nothing_to_repay_witness :
  SimulationResult.months (calculateSimulation (mkParams 0 3000 5000 18)) = 0%Z.
Proof.
  assert (H : initialBalance (mkParams 0 3000 5000 18) <= 0) by discriminate.
  rewrite (nothing_to_repay (mkParams 0 3000 5000 18) H). reflexivity.
Defined.

(** * Properties on binary64 numbers *)

Import Binary64 Binary64Notions.
Open Scope float_scope.

(** ** [Math.floor] on sample values *)

Example floor_samples :
  floor 4500 = 4500 /\ floor 124.99999999999999 = 124 /\ floor 2.5 = 2 /\
  floor 3.5 = 3 /\ floor 0.5 = 0 /\ floor (-0.5) = -1 /\ floor (-10) = -10 /\
  floor (-2.5) = -3 /\ floor 4503599627370495.5 = 4503599627370495 /\
  floor (-4503599627370495.5) = -4503599627370496 /\ floor 1e308 = 1e308 /\
  floor (-0) = (-0) /\ floor infinity = infinity /\
  floor neg_infinity = neg_infinity /\ isNaN (floor nan) = true.
Proof. vm_compute. repeat split. Qed.

(** ** Scenario A on binary64 numbers *)

(** The run of the specification's scenario A computes the same numbers on
    binary64 as on exact rationals. *)
Example scenarioA_binary64 :
  SimulationResult.months (calculateSimulation scenarioA) = 154%Z /\
  SimulationResult.isInfinite (calculateSimulation scenarioA) = false /\
  exists r : MonthData.t,
    nth_error (SimulationResult.data (calculateSimulation scenarioA)) 1 = Some r /\
    MonthData.interestPaid r = 4500 /\ MonthData.principalPaid r = 500 /\
    MonthData.balance r = 299500.
Proof.
  split; [vm_compute; reflexivity|]. split; [vm_compute; reflexivity|].
  eexists. split; [vm_compute; reflexivity|]. repeat split.
Qed.

(** ** Comparisons of binary64 numbers *)

Lemma Prim2SF_zero : Prim2SF 0 = S754_zero false.
Proof. reflexivity. Qed.

Lemma ltb_leb (x y : float) : (x <? y) = true -> (x <=? y) = true.
Proof.
  rewrite ltb_spec, leb_spec. unfold SFltb, SFleb.
  destruct (SFcompare (Prim2SF x) (Prim2SF y)) as [[]|]; congruence.
Qed.

Lemma leb_not_ltb (x y : float) :
  (x <=? y) = true -> (x <? y) = false -> (x =? y) = true.
Proof.
  rewrite ltb_spec, leb_spec, eqb_spec. unfold SFltb, SFleb, SFeqb.
  destruct (SFcompare (Prim2SF x) (Prim2SF y)) as [[]|]; congruence.
Qed.

Lemma eqb_leb (x y : float) : (x =? y) = true -> (x <=? y) = true.
Proof.
  rewrite leb_spec, eqb_spec. unfold SFleb, SFeqb.
  destruct (SFcompare (Prim2SF x) (Prim2SF y)) as [[]|]; congruence.
Qed.

Lemma not_nan_leb_refl (x : float) : isNaN x = false -> (x <=? x) = true.
Proof.
  unfold isNaN. intro H. apply negb_false_iff in H. now apply eqb_leb.
Qed.

(** Comparisons with zero, by the kind of number. *)
Ltac by_kind x :=
  rewrite ?ltb_spec, ?leb_spec, ?eqb_spec, ?Prim2SF_zero in *;
  destruct (Prim2SF x) as [[|]|[|]| |[|] ? ?];
  cbn in *; try congruence; try reflexivity.

Lemma nonneg_not_pos (b : float) :
  (0 <=? b) = true -> (0 <? b) = false -> (b =? 0) = true.
Proof. intros H1 H2. by_kind b. Qed.

Lemma nonneg_not_neg (b : float) : (0 <=? b) = true -> (b <? 0) = false.
Proof. intros H. by_kind b. Qed.

Lemma pos_not_nonpos (b : float) : (0 <? b) = true -> (b <=? 0) = false.
Proof. intros H. by_kind b. Qed.

(** Neither [b <= 0] nor [0 < b]: only NaN is not ordered with zero. *)
Lemma unordered_with_zero (b : float) :
  (b <=? 0) = false -> (0 <? b) = false -> isNaN b = true.
Proof.
  unfold isNaN. intros H1 H2. apply negb_true_iff. by_kind b.
Qed.

Lemma zero_not_neg : (0 <? 0) = false.
Proof. reflexivity. Qed.

(** ** The loop: fuel, termination and the invariant rule *)

Lemma loopCond_month_b64 (s : State.t) :
  loopCond s = true -> (State.month s < MAX_MONTHS)%Z.
Proof.
  unfold loopCond. intro H. apply andb_true_iff in H. destruct H as [_ H].
  now apply Z.ltb_lt in H.
Qed.

Lemma loopCond_balance_b64 (s : State.t) :
  loopCond s = true -> (0 <? State.balance s) = true.
Proof. unfold loopCond. intro H. apply andb_true_iff in H. tauto. Qed.

(** What an iteration returns. *)
Lemma loopBody_cases_b64 (p : SimulationParams) (s : State.t) :
  (runaway p (State.balance s) = true /\
   loopBody p s = Break (runawayBreak s)) \/
  (runaway p (State.balance s) = false /\
   (loopBody p s = Continue (applyMonth p s) \/
    loopBody p s = Break (applyMonth p s) \/
    loopBody p s = Break (setInfinite (applyMonth p s)))).
Proof.
  unfold loopBody. destruct (runaway p (State.balance s)).
  - left. split; reflexivity.
  - right. split; [reflexivity|]. unfold terminationChecks.
    repeat match goal with
    | |- context [if ?c then _ else _] => destruct c
    end; auto.
Qed.

Lemma loopBody_Continue_b64 (p : SimulationParams) (s s' : State.t) :
  loopBody p s = Continue s' ->
  runaway p (State.balance s) = false /\ s' = applyMonth p s.
Proof.
  intro H.
  destruct (loopBody_cases_b64 p s) as [[_ E]|[Hr [E|[E|E]]]];
    rewrite E in H; try discriminate.
  injection H as <-. split; [assumption|reflexivity].
Qed.

Lemma loopBody_Continue_month_b64 (p : SimulationParams) (s s' : State.t) :
  loopBody p s = Continue s' -> State.month s' = (State.month s + 1)%Z.
Proof. intro H. apply loopBody_Continue_b64 in H. destruct H as [_ ->]. reflexivity. Qed.

Lemma loopBody_not_runaway_b64 (p : SimulationParams) (s : State.t) :
  runaway p (State.balance s) = false ->
  loopBody p s = terminationChecks p (State.balance s) (applyMonth p s).
Proof. unfold loopBody. intros ->. reflexivity. Qed.

(** The loop never stops for lack of fuel. *)
Lemma whileLoop_fuel_b64 (p : SimulationParams) :
  forall (fuel1 fuel2 : nat) (s : State.t),
    (MAX_MONTHS - State.month s <= Z.of_nat fuel1)%Z ->
    (MAX_MONTHS - State.month s <= Z.of_nat fuel2)%Z ->
    whileLoop fuel1 p s = whileLoop fuel2 p s.
Proof.
  assert (Hstop : forall fuel s, (MAX_MONTHS - State.month s <= 0)%Z ->
                    whileLoop fuel p s = s).
  { intros [|fuel] s Hm; simpl; [reflexivity|].
    destruct (loopCond s) eqn:Hc; [|reflexivity].
    apply loopCond_month_b64 in Hc. lia. }
  induction fuel1 as [|fuel1 IH]; intros fuel2 s H1 H2.
  - rewrite (Hstop fuel2 s) by lia. reflexivity.
  - destruct fuel2 as [|fuel2].
    + rewrite (Hstop (S fuel1) s) by lia. reflexivity.
    + simpl. destruct (loopCond s); [|reflexivity].
      destruct (loopBody p s) as [s'|s'] eqn:Hb; [reflexivity|].
      apply loopBody_Continue_month_b64 in Hb. apply IH; lia.
Qed.

(** The loop ends by its own condition or a break, after entering its body
    at most as many times as months are left before [MAX_MONTHS], and
    [whileLoop] computes the state it ends in. *)
Lemma whileLoop_iterates (p : SimulationParams) :
  forall (fuel : nat) (s : State.t),
    (MAX_MONTHS - State.month s <= Z.of_nat fuel)%Z ->
    exists n : nat,
      (Z.of_nat n <= Z.max 0 (MAX_MONTHS - State.month s))%Z /\
      iterates p n s (whileLoop fuel p s).
Proof.
  induction fuel as [|fuel IH]; intros s Hf.
  - exists 0%nat. split; [lia|]. cbn [whileLoop]. apply iterates_exit.
    destruct (loopCond s) eqn:Hc; [|reflexivity].
    apply loopCond_month_b64 in Hc. lia.
  - cbn [whileLoop]. destruct (loopCond s) eqn:Hc.
    + pose proof (loopCond_month_b64 s Hc) as Hm.
      destruct (loopBody p s) as [s'|s'] eqn:Hb.
      * exists 1%nat. split; [lia|]. now apply iterates_break.
      * pose proof (loopBody_Continue_month_b64 p s s' Hb) as Hm'.
        destruct (IH s') as (n & Hn & Hit); [lia|].
        exists (S n). split; [lia|]. now apply (iterates_continue p n s s').
    + exists 0%nat. split; [lia|]. now apply iterates_exit.
Qed.

(** Hoare-style rule for the loop. *)
Lemma whileLoop_rule_b64 (p : SimulationParams) (I Post : State.t -> Prop) :
  (forall s s', I s -> loopCond s = true -> loopBody p s = Continue s' -> I s') ->
  (forall s s', I s -> loopCond s = true -> loopBody p s = Break s' -> Post s') ->
  (forall s, I s -> loopCond s = false -> Post s) ->
  forall (fuel : nat) (s : State.t),
    (MAX_MONTHS - State.month s <= Z.of_nat fuel)%Z ->
    I s -> Post (whileLoop fuel p s).
Proof.
  intros Hcont Hbreak Hexit. induction fuel as [|fuel IH]; intros s Hm Hs.
  - simpl. apply Hexit; [assumption|].
    destruct (loopCond s) eqn:Hc; [|reflexivity].
    apply loopCond_month_b64 in Hc. lia.
  - simpl. destruct (loopCond s) eqn:Hc; [|now apply Hexit].
    destruct (loopBody p s) as [s'|s'] eqn:Hb.
    + now apply (Hbreak s).
    + apply IH.
      * apply loopBody_Continue_month_b64 in Hb. lia.
      * now apply (Hcont s).
Qed.

Lemma finalState_rule_b64 (p : SimulationParams) (I Post : State.t -> Prop) :
  I (initState p) ->
  (forall s s', I s -> loopCond s = true -> loopBody p s = Continue s' -> I s') ->
  (forall s s', I s -> loopCond s = true -> loopBody p s = Break s' -> Post s') ->
  (forall s, I s -> loopCond s = false -> Post s) ->
  Post (finalState p).
Proof.
  intros Hinit Hcont Hbreak Hexit. unfold finalState.
  apply (whileLoop_rule_b64 p I Post); try assumption.
  change (State.month (initState p)) with 0%Z. unfold MAX_MONTHS. lia.
Qed.

(** Rule for properties of the ledger, which do not see the month counter
    nor the flag. *)
Lemma ledger_rule_b64 (p : SimulationParams) (I : State.t -> Prop) :
  (forall s m b, I s ->
     I (State.mk (State.balance s) (State.totalInterest s) (State.totalPaid s)
          (State.cumulativePrincipal s) (State.data s) m b)) ->
  I (initState p) ->
  (forall s, I s -> loopCond s = true -> runaway p (State.balance s) = false ->
     I (applyMonth p s)) ->
  I (finalState p).
Proof.
  intros Hframe Hinit Hstep.
  apply (finalState_rule_b64 p I I); [assumption| | |auto].
  - intros s s' Hs Hc Hb. apply loopBody_Continue_b64 in Hb.
    destruct Hb as [Hr ->]. now apply Hstep.
  - intros s s' Hs Hc Hb.
    destruct (loopBody_cases_b64 p s) as [[_ E]|[Hr [E|[E|E]]]];
      rewrite E in Hb; inversion Hb; subst s'.
    + apply (Hframe s). assumption.
    + now apply Hstep.
    + apply (Hframe (applyMonth p s)). now apply Hstep.
Qed.

Lemma lastRecord_push_b64 (l : list MonthData.t) (x : MonthData.t) :
  lastRecord (l ++ [x]) = Some x.
Proof.
  unfold lastRecord. rewrite length_app. simpl.
  replace (length l + 1 - 1)%nat with (length l) by lia.
  apply nth_error_snoc_last.
Qed.

Lemma lastRecord_split_b64 (l : list MonthData.t) (r : MonthData.t) :
  lastRecord l = Some r -> exists pre, l = pre ++ [r].
Proof.
  unfold lastRecord. intro H.
  destruct (exists_last (l := l)) as (pre & x & ->).
  - intros ->. discriminate.
  - exists pre. fold (lastRecord (pre ++ [x])) in H.
    rewrite lastRecord_push_b64 in H. congruence.
Qed.

Lemma books_init_b64 (p : SimulationParams) : books (initState p).
Proof. eexists. repeat split. Qed.

Lemma books_applyMonth_b64 (p : SimulationParams) (s : State.t) :
  books (applyMonth p s).
Proof.
  exists (monthRecord p s). unfold applyMonth. cbn [State.data].
  rewrite lastRecord_push_b64. repeat split.
Qed.

(** ** Rounding of binary64 sums and differences

    The operations of Rocq's primitive floats are specified by the functions
    of [SpecFloat] on a sign, a mantissa and an exponent.  This section
    derives from that specification what the properties below need: the
    result of rounding an exact sum lies between the two representable
    neighbours of that sum, so that rounding is monotone against any
    representable number. *)

Section RoundingIntegers.
Open Scope Z_scope.

Lemma fexp_eq (e : Z) : fexp prec emax e = Z.max (e - 53) (-1074).
Proof. reflexivity. Qed.

Lemma scale_pos (e : Z) : -1074 <= e -> 0 < scale e.
Proof. intro H. unfold scale. apply Z.pow_pos_nonneg; lia. Qed.

Lemma scale_add (e k : Z) :
  -1074 <= e -> 0 <= k -> scale (e + k) = 2 ^ k * scale e.
Proof.
  intros He Hk. unfold scale.
  replace (e + k + 1074) with (k + (e + 1074)) by lia.
  apply Z.pow_add_r; lia.
Qed.

Lemma scale_le (e1 e2 : Z) : -1074 <= e1 -> e1 <= e2 -> scale e1 <= scale e2.
Proof. intros H1 H2. unfold scale. apply Z.pow_le_mono_r; lia. Qed.

Lemma scale_lt (e1 e2 : Z) : -1074 <= e1 -> e1 < e2 -> scale e1 < scale e2.
Proof. intros H1 H2. unfold scale. apply Z.pow_lt_mono_r; lia. Qed.

Lemma scale_lt_inv (e1 e2 : Z) :
  -1074 <= e1 -> -1074 <= e2 -> scale e1 < scale e2 -> e1 < e2.
Proof.
  intros H1 H2 H. destruct (Z_lt_le_dec e1 e2) as [Hlt|Hle]; [exact Hlt|].
  pose proof (scale_le e2 e1 H2 Hle). lia.
Qed.

Lemma digits2_pos_bounds (m : positive) :
  2 ^ (Zpos (digits2_pos m) - 1) <= Zpos m < 2 ^ Zpos (digits2_pos m).
Proof.
  induction m as [m IH|m IH|]; cbn [digits2_pos].
  - rewrite Pos2Z.inj_succ, Z.pow_succ_r by lia.
    replace (Z.succ (Zpos (digits2_pos m)) - 1)
      with (Z.succ (Zpos (digits2_pos m) - 1)) by lia.
    rewrite Z.pow_succ_r by lia. lia.
  - rewrite Pos2Z.inj_succ, Z.pow_succ_r by lia.
    replace (Z.succ (Zpos (digits2_pos m)) - 1)
      with (Z.succ (Zpos (digits2_pos m) - 1)) by lia.
    rewrite Z.pow_succ_r by lia. lia.
  - cbn. lia.
Qed.

(** The value of a mantissa at an exponent, between two powers of two. *)
Lemma value_bounds (m : positive) (e : Z) :
  -1074 <= e ->
  scale (Zpos (digits2_pos m) + e - 1) <= Zpos m * scale e
  < scale (Zpos (digits2_pos m) + e).
Proof.
  intro He. pose proof (digits2_pos_bounds m) as [Hlo Hhi].
  pose proof (scale_pos e He) as Hs.
  replace (Zpos (digits2_pos m) + e - 1) with (e + (Zpos (digits2_pos m) - 1)) by lia.
  replace (Zpos (digits2_pos m) + e) with (e + Zpos (digits2_pos m)) by lia.
  rewrite !scale_add by lia. split.
  - apply Z.mul_le_mono_nonneg_r; lia.
  - apply Z.mul_lt_mono_pos_r; lia.
Qed.

Lemma shr_1_shifted (mrs : shr_record) : 0 <= shr_m mrs -> shifted 1 mrs (shr_1 mrs).
Proof.
  destruct mrs as [[|[p|p|]|p] r s]; unfold shifted, inexact; cbn;
    intro H; try lia;
    (split; [lia|]); (split; [lia|]);
    destruct r, s; cbn; intro; try discriminate; try (now left); try (right; lia).
Qed.

Lemma shifted_trans (k1 k2 : Z) (a b c : shr_record) :
  0 <= k1 -> 0 <= k2 -> shifted k1 a b -> shifted k2 b c -> shifted (k1 + k2) a c.
Proof.
  intros H1 H2 (Hb & [Hlo1 Hhi1] & Hi1) (Hc & [Hlo2 Hhi2] & Hi2).
  unfold shifted. rewrite Z.pow_add_r by lia.
  assert (P1 : 0 < 2 ^ k1) by (apply Z.pow_pos_nonneg; lia).
  assert (P2 : 0 < 2 ^ k2) by (apply Z.pow_pos_nonneg; lia).
  assert (A : 2 ^ k1 * (2 ^ k2 * shr_m c) <= 2 ^ k1 * shr_m b)
    by (apply Z.mul_le_mono_nonneg_l; lia).
  assert (B : 2 ^ k1 * (shr_m b + 1) <= 2 ^ k1 * (2 ^ k2 * (shr_m c + 1)))
    by (apply Z.mul_le_mono_nonneg_l; lia).
  split; [exact Hc|]. split; [lia|].
  intro Hin. destruct (Hi2 Hin) as [Hb'|Hlt].
  - destruct (Hi1 Hb') as [Ha|Hlt]; [now left|right; lia].
  - right.
    assert (C : 2 ^ k1 * (2 ^ k2 * shr_m c) < 2 ^ k1 * shr_m b)
      by (apply Z.mul_lt_mono_pos_l; lia).
    lia.
Qed.

Lemma iter_shr_shifted (p : positive) :
  forall mrs : shr_record, 0 <= shr_m mrs ->
    shifted (Zpos p) mrs (iter_pos shr_1 p mrs).
Proof.
  induction p as [p IH|p IH|]; intros mrs Hm; cbn [iter_pos].
  - pose proof (shr_1_shifted mrs Hm) as S1.
    assert (H1 : 0 <= shr_m (shr_1 mrs)) by apply S1.
    pose proof (IH _ H1) as S2.
    assert (H2 : 0 <= shr_m (iter_pos shr_1 p (shr_1 mrs))) by apply S2.
    pose proof (IH _ H2) as S3.
    replace (Zpos p~1) with (1 + Zpos p + Zpos p) by lia.
    eapply shifted_trans; [lia|lia| |exact S3].
    eapply shifted_trans; [lia|lia|exact S1|exact S2].
  - pose proof (IH _ Hm) as S1.
    assert (H1 : 0 <= shr_m (iter_pos shr_1 p mrs)) by apply S1.
    pose proof (IH _ H1) as S2.
    replace (Zpos p~0) with (Zpos p + Zpos p) by lia.
    eapply shifted_trans; [lia|lia|exact S1|exact S2].
  - now apply shr_1_shifted.
Qed.

Lemma digits2_pos_unique (m : positive) (d : Z) :
  2 ^ (d - 1) <= Zpos m < 2 ^ d -> Zpos (digits2_pos m) = d.
Proof.
  intros [Hlo Hhi]. pose proof (digits2_pos_bounds m) as [Hlo' Hhi'].
  assert (Hd : 0 < d).
  { destruct (Z_lt_le_dec 0 d) as [H|H]; [exact H|].
    destruct (Z.eq_dec d 0) as [->|Hn]; [cbn in Hhi; lia|].
    rewrite (Z.pow_neg_r 2 d) in Hhi by lia. lia. }
  destruct (Z.lt_trichotomy (Zpos (digits2_pos m)) d) as [H|[H|H]]; [|exact H|].
  - assert (2 ^ Zpos (digits2_pos m) <= 2 ^ (d - 1))
      by (apply Z.pow_le_mono_r; lia). lia.
  - assert (2 ^ d <= 2 ^ (Zpos (digits2_pos m) - 1))
      by (apply Z.pow_le_mono_r; lia). lia.
Qed.

Lemma round_nearest_even_bounds (mrs : shr_record) :
  let m' := round_nearest_even (shr_m mrs) (loc_of_shr_record mrs) in
  shr_m mrs <= m' <= shr_m mrs + 1 /\
  (m' = shr_m mrs + 1 -> inexact mrs = true).
Proof.
  destruct mrs as [q [|] [|]]; cbn; unfold inexact; cbn;
    try destruct (Z.even q); split; try lia; intros; try reflexivity; lia.
Qed.

Lemma shr_exact_shifted (m e k : Z) :
  0 <= m -> 0 <= k ->
  exists mrs : shr_record,
    shr (Build_shr_record m false false) e k = (mrs, e + k) /\
    shifted k (Build_shr_record m false false) mrs.
Proof.
  intros Hm Hk. destruct k as [|p|p]; [| |lia].
  - exists (Build_shr_record m false false). split.
    + cbn. now rewrite Z.add_0_r.
    + unfold shifted, inexact. cbn [shr_m shr_r shr_s orb]. rewrite Z.pow_0_r.
      split; [lia|]. split; [lia|]. discriminate.
  - exists (iter_pos shr_1 p (Build_shr_record m false false)). split.
    + reflexivity.
    + now apply iter_shr_shifted.
Qed.

Lemma mul_scale_le_inv (a b s : Z) : 0 < s -> a * s <= b * s -> a <= b.
Proof. intros Hs H. now apply Z.mul_le_mono_pos_r in H. Qed.

Lemma pow2_mul_lt_inv (k a b : Z) : 0 <= k -> 2 ^ k * a < 2 ^ k * b -> a < b.
Proof.
  intros Hk H. assert (0 < 2 ^ k) by (apply Z.pow_pos_nonneg; lia).
  now apply Z.mul_lt_mono_pos_l in H.
Qed.

Lemma pow2_mul_le_inv (k a b : Z) : 0 <= k -> 2 ^ k * a <= 2 ^ k * b -> a <= b.
Proof.
  intros Hk H. assert (0 < 2 ^ k) by (apply Z.pow_pos_nonneg; lia).
  now apply Z.mul_le_mono_pos_l in H.
Qed.

(** The first shift and the rounding of [binary_round_aux]. *)
Lemma first_rounding (m : positive) (e : Z) :
  -1074 <= e -> e <= fexp prec emax (Zpos (digits2_pos m) + e) ->
  let e' := fexp prec emax (Zpos (digits2_pos m) + e) in
  exists mrs : shr_record,
    shr_fexp prec emax (Zpos m) e loc_Exact = (mrs, e') /\
    let m' := round_nearest_even (shr_m mrs) (loc_of_shr_record mrs) in
    1 <= m' <= 2 ^ 53 /\
    (-1074 < e' -> 2 ^ 52 <= m') /\
    (forall Y, Y * scale e' <= Zpos m * scale e -> Y <= m') /\
    (forall Y, Zpos m * scale e <= Y * scale e' -> m' <= Y).
Proof.
  intros He Hle e'.
  assert (He' : -1074 <= e') by (unfold e'; rewrite fexp_eq; lia).
  set (k := e' - e).
  assert (Hk : 0 <= k) by (unfold k, e'; lia).
  destruct (shr_exact_shifted (Zpos m) e k) as (mrs & Hshr & Hsh); [lia|exact Hk|].
  exists mrs. split.
  { unfold shr_fexp. cbn [Zdigits2 shr_record_of_loc]. fold e'. fold k.
    rewrite Hshr. f_equal. unfold k. lia. }
  destruct Hsh as (Hq & [Hlo Hhi] & Hin).
  cbn [shr_m] in Hlo, Hhi, Hin. unfold inexact at 2 in Hin. cbn in Hin.
  pose proof (round_nearest_even_bounds mrs) as [[Hm1 Hm2] Hup]. cbv zeta in *.
  set (m' := round_nearest_even (shr_m mrs) (loc_of_shr_record mrs)) in *.
  set (q := shr_m mrs) in *.
  pose proof (digits2_pos_bounds m) as [Hdlo Hdhi].
  set (d := Zpos (digits2_pos m)) in *.
  assert (Hd : 1 <= d) by (unfold d; lia).
  assert (Hscale : scale e' = 2 ^ k * scale e).
  { replace e' with (e + k) by (unfold k; lia). now apply scale_add. }
  pose proof (scale_pos e He) as Hs.
  assert (Hpk : 0 < 2 ^ k) by (apply Z.pow_pos_nonneg; lia).
  assert (Hfloor : forall Y, Y * scale e' <= Zpos m * scale e -> Y <= m').
  { intros Y HY. rewrite Hscale, Z.mul_assoc in HY.
    apply mul_scale_le_inv in HY; [|exact Hs].
    assert (2 ^ k * Y < 2 ^ k * (q + 1)) by lia.
    apply pow2_mul_lt_inv in H; lia. }
  assert (Hceil : forall Y, Zpos m * scale e <= Y * scale e' -> m' <= Y).
  { intros Y HY. rewrite Hscale, Z.mul_assoc in HY.
    apply mul_scale_le_inv in HY; [|exact Hs].
    destruct (Z.eq_dec m' (q + 1)) as [E|E].
    - destruct (Hin (Hup E)) as [Hf|Hlt]; [discriminate|].
      assert (2 ^ k * q < 2 ^ k * Y) by lia.
      apply pow2_mul_lt_inv in H; lia.
    - assert (2 ^ k * q <= 2 ^ k * Y) by lia.
      apply pow2_mul_le_inv in H; lia. }
  assert (Hcases : (e' = d + e - 53 /\ k = d - 53) \/ (e' = -1074 /\ e = -1074 /\ k = 0 /\ d < 53)).
  { unfold k, e' in *. rewrite fexp_eq in *. fold d in Hle |- *. lia. }
  destruct Hcases as [[E1 E2]|(E1 & E2 & E3 & E4)].
  - assert (H53 : 2 ^ d = 2 ^ k * 2 ^ 53).
    { rewrite <- Z.pow_add_r by lia. f_equal. lia. }
    assert (H52 : 2 ^ (d - 1) = 2 ^ k * 2 ^ 52).
    { rewrite <- Z.pow_add_r by lia. f_equal. lia. }
    assert (Hq1 : q < 2 ^ 53).
    { apply (pow2_mul_lt_inv k); lia. }
    assert (Hq2 : 2 ^ 52 < q + 1).
    { apply (pow2_mul_lt_inv k); lia. }
    assert (0 < 2 ^ 52) by (apply Z.pow_pos_nonneg; lia).
    repeat split; try assumption; lia.
  - rewrite E3, Z.pow_0_r in *.
    assert (Hm' : m' = q).
    { destruct (Z.eq_dec m' (q + 1)) as [E|E]; [|lia].
      destruct (Hin (Hup E)) as [Hf|Hlt]; [discriminate|lia]. }
    assert (2 ^ d <= 2 ^ 53) by (apply Z.pow_le_mono_r; lia).
    repeat split; try assumption; lia.
Qed.

Lemma canonical_mantissa_eq (m : positive) (e : Z) :
  canonical_mantissa prec emax m e = true <->
  Z.max (Zpos (digits2_pos m) + e - 53) (-1074) = e.
Proof. unfold canonical_mantissa. rewrite fexp_eq. apply Z.eqb_eq. Qed.

(** The second shift of [binary_round_aux]: it acts only when the rounding
    has carried into a 54th bit. *)
Lemma second_shift (s : bool) (m' e' : Z) :
  1 <= m' <= 2 ^ 53 -> -1074 <= e' -> (-1074 < e' -> 2 ^ 52 <= m') ->
  exists (m'' : positive) (e'' : Z),
    (let '(mrs'', e'') := shr_fexp prec emax m' e' loc_Exact in
     match shr_m mrs'' with
     | Z0 => S754_zero s
     | Zpos m => if Z.leb e'' (emax - prec) then S754_finite s m e''
                 else S754_infinity s
     | Zneg _ => S754_nan
     end)
    = (if e'' <=? 971 then S754_finite s m'' e'' else S754_infinity s) /\
    canonical_mantissa prec emax m'' e'' = true /\
    e' <= e'' /\
    Zpos m'' * scale e'' = m' * scale e'.
Proof.
  intros [Hlo Hhi] He' Hnorm.
  destruct m' as [|p|p]; [lia| |lia].
  destruct (Z.eq_dec (Zpos p) (2 ^ 53)) as [E|E].
  - exists 4503599627370496%positive, (e' + 1).
    change (2 ^ 53) with 9007199254740992 in E. injection E as ->.
    unfold shr_fexp. cbn [Zdigits2 shr_record_of_loc].
    change (Zpos (digits2_pos 9007199254740992)) with 54.
    rewrite fexp_eq.
    replace (Z.max (54 + e' - 53) (-1074) - e') with 1 by lia.
    split; [reflexivity|]. split; [|split; [lia|]].
    + apply canonical_mantissa_eq.
      change (Zpos (digits2_pos 4503599627370496)) with 53. lia.
    + rewrite scale_add by lia. change (2 ^ 1) with 2. lia.
  - exists p, e'.
    pose proof (digits2_pos_bounds p) as [Hdlo Hdhi].
    set (d := Zpos (digits2_pos p)) in *.
    assert (Hd1 : 1 <= d) by (unfold d; lia).
    assert (Hd : d <= 53).
    { destruct (Z_le_gt_dec d 53) as [H|H]; [exact H|].
      assert (2 ^ 53 <= 2 ^ (d - 1)) by (apply Z.pow_le_mono_r; lia). lia. }
    assert (Hcan : Z.max (d + e' - 53) (-1074) = e').
    { destruct (Z.eq_dec e' (-1074)) as [->|Hn]; [lia|].
      assert (H52 : 2 ^ 52 <= Zpos p) by (apply Hnorm; lia).
      assert (53 <= d).
      { destruct (Z_le_gt_dec 53 d) as [H|H]; [exact H|].
        assert (2 ^ d <= 2 ^ 52) by (apply Z.pow_le_mono_r; lia). lia. }
      lia. }
    unfold shr_fexp. cbn [Zdigits2 shr_record_of_loc]. fold d.
    rewrite fexp_eq, Hcan, Z.sub_diag. cbn [shr shr_m].
    split; [reflexivity|]. split; [|split; [lia|reflexivity]].
    apply canonical_mantissa_eq. fold d. exact Hcan.
Qed.

(** [binary_round_aux] on an exact positive mantissa whose exponent is not
    above the one of its magnitude: the result is finite or an infinity, in
    canonical form, and its value lies between the two neighbours of the
    exact value on the grid of that magnitude. *)
Lemma round_spec (s : bool) (m : positive) (e : Z) :
  -1074 <= e -> e <= fexp prec emax (Zpos (digits2_pos m) + e) ->
  let e' := fexp prec emax (Zpos (digits2_pos m) + e) in
  exists (m'' : positive) (e'' : Z),
    binary_round_aux prec emax s (Zpos m) e loc_Exact
    = (if e'' <=? 971 then S754_finite s m'' e'' else S754_infinity s) /\
    canonical_mantissa prec emax m'' e'' = true /\
    e' <= e'' /\
    (forall Y, Y * scale e' <= Zpos m * scale e ->
               Y * scale e' <= Zpos m'' * scale e'') /\
    (forall Y, Zpos m * scale e <= Y * scale e' ->
               Zpos m'' * scale e'' <= Y * scale e').
Proof.
  intros He Hle e'.
  destruct (first_rounding m e He Hle) as (mrs & Hshr & Hb & Hn & Hfloor & Hceil).
  fold e' in Hshr, Hb, Hn, Hfloor, Hceil. cbv zeta in *.
  assert (He' : -1074 <= e') by (unfold e'; rewrite fexp_eq; lia).
  destruct (second_shift s _ e' Hb He' Hn) as (m'' & e'' & Hres & Hcan & Hee & Hval).
  exists m'', e''. unfold binary_round_aux. rewrite Hshr.
  split; [exact Hres|]. split; [exact Hcan|]. split; [exact Hee|].
  pose proof (scale_pos e' He') as Hs.
  rewrite Hval. split.
  - intros Y HY. apply Z.mul_le_mono_nonneg_r; [lia|]. now apply Hfloor.
  - intros Y HY. apply Z.mul_le_mono_nonneg_r; [lia|]. now apply Hceil.
Qed.

Lemma iter_xO (d m : positive) : Zpos (Pos.iter xO m d) = Zpos m * 2 ^ Zpos d.
Proof.
  induction d as [|d IH] using Pos.peano_ind.
  - cbn. lia.
  - rewrite Pos.iter_succ, Pos2Z.inj_succ, Z.pow_succ_r by lia.
    rewrite Pos2Z.inj_xO, IH. lia.
Qed.

Lemma shl_align_spec (m : positive) (e e' : Z) :
  snd (shl_align m e e') = Z.min e e' /\
  Zpos (fst (shl_align m e e')) = Zpos m * 2 ^ (e - Z.min e e').
Proof.
  unfold shl_align. destruct (e' - e) as [|d|d] eqn:E; cbn [fst snd].
  - replace (Z.min e e') with e by lia. rewrite Z.sub_diag. cbn. lia.
  - replace (Z.min e e') with e by lia. rewrite Z.sub_diag. cbn. lia.
  - replace (Z.min e e') with e' by lia. rewrite iter_xO.
    split; [reflexivity|]. f_equal. f_equal. lia.
Qed.

Lemma shifted_value (m m1 : positive) (e e1 : Z) :
  -1074 <= e1 -> e1 <= e -> Zpos m1 = Zpos m * 2 ^ (e - e1) ->
  Zpos m1 * scale e1 = Zpos m * scale e.
Proof.
  intros H1 H2 ->. replace e with (e1 + (e - e1)) at 2 by lia.
  rewrite scale_add by lia. lia.
Qed.

(** The magnitude of a value fixes the sum of its digits and exponent. *)
Lemma magnitude_unique (m1 m2 : positive) (e1 e2 : Z) :
  -1074 <= e1 -> -1074 <= e2 ->
  Zpos m1 * scale e1 = Zpos m2 * scale e2 ->
  Zpos (digits2_pos m1) + e1 = Zpos (digits2_pos m2) + e2.
Proof.
  intros H1 H2 E.
  pose proof (value_bounds m1 e1 H1) as [A1 B1].
  pose proof (value_bounds m2 e2 H2) as [A2 B2].
  assert (P1 : 1 <= Zpos (digits2_pos m1)) by lia.
  assert (P2 : 1 <= Zpos (digits2_pos m2)) by lia.
  assert (L1 : Zpos (digits2_pos m1) + e1 - 1 < Zpos (digits2_pos m2) + e2)
    by (apply scale_lt_inv; lia).
  assert (L2 : Zpos (digits2_pos m2) + e2 - 1 < Zpos (digits2_pos m1) + e1)
    by (apply scale_lt_inv; lia).
  lia.
Qed.

Lemma magnitude_mono (m1 m2 : positive) (e1 e2 : Z) :
  -1074 <= e1 -> -1074 <= e2 ->
  Zpos m1 * scale e1 <= Zpos m2 * scale e2 ->
  Zpos (digits2_pos m1) + e1 <= Zpos (digits2_pos m2) + e2.
Proof.
  intros H1 H2 E.
  pose proof (value_bounds m1 e1 H1) as [A1 B1].
  pose proof (value_bounds m2 e2 H2) as [A2 B2].
  assert (P1 : 1 <= Zpos (digits2_pos m1)) by lia.
  assert (P2 : 1 <= Zpos (digits2_pos m2)) by lia.
  assert (L1 : Zpos (digits2_pos m1) + e1 - 1 < Zpos (digits2_pos m2) + e2)
    by (apply scale_lt_inv; lia).
  lia.
Qed.

(** [binary_round]: as [round_spec], from any exponent. *)
Lemma binary_round_spec (s : bool) (m : positive) (e : Z) :
  -1074 <= e ->
  let e' := fexp prec emax (Zpos (digits2_pos m) + e) in
  exists (m'' : positive) (e'' : Z),
    binary_round prec emax s m e
    = (if e'' <=? 971 then S754_finite s m'' e'' else S754_infinity s) /\
    canonical_mantissa prec emax m'' e'' = true /\
    e' <= e'' /\
    (forall Y, Y * scale e' <= Zpos m * scale e ->
               Y * scale e' <= Zpos m'' * scale e'') /\
    (forall Y, Zpos m * scale e <= Y * scale e' ->
               Zpos m'' * scale e'' <= Y * scale e').
Proof.
  intros He e'. unfold binary_round. fold e'.
  pose proof (shl_align_spec m e e') as [Hs Hf].
  destruct (shl_align m e e') as [m1 e1]. cbn [fst snd] in Hs, Hf.
  assert (He' : -1074 <= e') by (unfold e'; rewrite fexp_eq; lia).
  assert (He1 : -1074 <= e1) by lia.
  assert (Hval : Zpos m1 * scale e1 = Zpos m * scale e).
  { apply shifted_value; [lia|lia|]. now rewrite Hs. }
  assert (Hmag : Zpos (digits2_pos m1) + e1 = Zpos (digits2_pos m) + e)
    by (now apply magnitude_unique).
  assert (Hle : e1 <= fexp prec emax (Zpos (digits2_pos m1) + e1)).
  { rewrite Hmag. fold e'. lia. }
  destruct (round_spec s m1 e1 He1 Hle) as (m'' & e'' & Hres & Hcan & Hee & Hfl & Hce).
  rewrite Hmag in *. fold e' in Hee, Hfl, Hce. rewrite Hval in *.
  exists m'', e''. repeat split; assumption.
Qed.

(** Canonical mantissas are ordered as their values are ordered. *)
Lemma canonical_lt_exponent (m1 m2 : positive) (e1 e2 : Z) :
  canonical_mantissa prec emax m1 e1 = true ->
  canonical_mantissa prec emax m2 e2 = true ->
  e1 < e2 -> Zpos m1 * scale e1 < Zpos m2 * scale e2.
Proof.
  intros C1 C2 H. apply canonical_mantissa_eq in C1, C2.
  assert (H1 : -1074 <= e1) by lia. assert (H2 : -1074 <= e2) by lia.
  pose proof (value_bounds m1 e1 H1) as [_ B1].
  pose proof (value_bounds m2 e2 H2) as [A2 _].
  assert (scale (Zpos (digits2_pos m1) + e1) <= scale (Zpos (digits2_pos m2) + e2 - 1))
    by (apply scale_le; lia).
  lia.
Qed.

Lemma canonical_order (m1 m2 : positive) (e1 e2 : Z) :
  canonical_mantissa prec emax m1 e1 = true ->
  canonical_mantissa prec emax m2 e2 = true ->
  (Zpos m1 * scale e1 <= Zpos m2 * scale e2 <->
   e1 < e2 \/ (e1 = e2 /\ (m1 <= m2)%positive)).
Proof.
  intros C1 C2. split.
  - intro H. destruct (Z.lt_trichotomy e1 e2) as [L|[E|G]].
    + now left.
    + right. split; [exact E|]. subst e2.
      assert (0 < scale e1).
      { apply scale_pos. apply canonical_mantissa_eq in C1. lia. }
      apply mul_scale_le_inv in H; [|assumption]. lia.
    + pose proof (canonical_lt_exponent m2 m1 e2 e1 C2 C1 G). lia.
  - intros [L|[-> L]].
    + pose proof (canonical_lt_exponent m1 m2 e1 e2 C1 C2 L). lia.
    + assert (0 < scale e2).
      { apply scale_pos. apply canonical_mantissa_eq in C2. lia. }
      apply Z.mul_le_mono_nonneg_r; lia.
Qed.

(** Rounding is monotone against a representable number: from above ... *)
Lemma round_up (s : bool) (m p : positive) (e ez : Z) :
  canonical_mantissa prec emax m e = true ->
  -1074 <= ez -> Zpos m * scale e <= Zpos p * scale ez ->
  binary_round prec emax s p ez = S754_infinity s \/
  exists (m'' : positive) (e'' : Z),
    binary_round prec emax s p ez = S754_finite s m'' e'' /\
    (e < e'' \/ (e = e'' /\ (m <= m'')%positive)).
Proof.
  intros C Hez Hv.
  destruct (binary_round_spec s p ez Hez) as (m'' & e'' & Hres & Hcan & Hee & Hfl & _).
  cbv zeta in *.
  destruct (e'' <=? 971); [|now left]. right. exists m'', e''.
  split; [exact Hres|].
  pose proof C as C'. apply canonical_mantissa_eq in C'.
  assert (He : -1074 <= e) by lia.
  pose proof (magnitude_mono m p e ez He Hez Hv) as Hmag.
  assert (Hfe : e <= fexp prec emax (Zpos (digits2_pos p) + ez))
    by (rewrite fexp_eq; lia).
  destruct (Z.eq_dec e (fexp prec emax (Zpos (digits2_pos p) + ez))) as [E|E].
  - rewrite <- E in *. apply (canonical_order m m'' e e'' C Hcan).
    now apply Hfl.
  - left. lia.
Qed.

(** ... and from below. *)
Lemma round_down (s : bool) (m p : positive) (e ez : Z) :
  canonical_mantissa prec emax m e = true -> e <= 971 ->
  -1074 <= ez -> Zpos p * scale ez <= Zpos m * scale e ->
  exists (m'' : positive) (e'' : Z),
    binary_round prec emax s p ez = S754_finite s m'' e'' /\
    (e'' < e \/ (e'' = e /\ (m'' <= m)%positive)).
Proof.
  intros C Hb Hez Hv.
  destruct (binary_round_spec s p ez Hez) as (m'' & e'' & Hres & Hcan & Hee & _ & Hce).
  cbv zeta in *.
  pose proof C as C'. apply canonical_mantissa_eq in C'.
  assert (He : -1074 <= e) by lia.
  pose proof (magnitude_mono p m ez e Hez He Hv) as Hmag.
  set (e' := fexp prec emax (Zpos (digits2_pos p) + ez)) in *.
  assert (Hfe : e' <= e) by (unfold e'; rewrite fexp_eq; lia).
  assert (He' : -1074 <= e') by (unfold e'; rewrite fexp_eq; lia).
  assert (Hord : Zpos m'' * scale e'' <= Zpos m * scale e).
  { specialize (Hce (Zpos m * 2 ^ (e - e'))).
    replace (Zpos m * 2 ^ (e - e') * scale e') with (Zpos m * scale e) in Hce.
    - now apply Hce.
    - replace e with (e' + (e - e')) at 1 by lia.
      rewrite scale_add by lia. lia. }
  apply (canonical_order m'' m e'' e Hcan C) in Hord.
  exists m'', e''. split; [|exact Hord].
  rewrite Hres. replace (e'' <=? 971) with true; [reflexivity|].
  symmetry. apply Z.leb_le. lia.
Qed.

Lemma SFleb_finite_pos (m1 m2 : positive) (e1 e2 : Z) :
  e1 < e2 \/ (e1 = e2 /\ (m1 <= m2)%positive) ->
  SFleb (S754_finite false m1 e1) (S754_finite false m2 e2) = true.
Proof.
  unfold SFleb, SFcompare. intros [H|[-> H]].
  - apply Z.compare_lt_iff in H. now rewrite H.
  - rewrite Z.compare_refl. fold (Pos.compare m1 m2).
    destruct (Pos.compare m1 m2) eqn:E; try reflexivity.
    exfalso. apply Pos.compare_gt_iff in E. lia.
Qed.

Lemma SFleb_finite_neg (m1 m2 : positive) (e1 e2 : Z) :
  e2 < e1 \/ (e2 = e1 /\ (m2 <= m1)%positive) ->
  SFleb (S754_finite true m1 e1) (S754_finite true m2 e2) = true.
Proof.
  unfold SFleb, SFcompare. intros [H|[-> H]].
  - apply Z.compare_gt_iff in H. now rewrite H.
  - rewrite Z.compare_refl. fold (Pos.compare m1 m2).
    destruct (Pos.compare m1 m2) eqn:E; try reflexivity.
    exfalso. change ((m1 < m2)%positive) in E. lia.
Qed.

Lemma bounded_canonical (m : positive) (e : Z) :
  bounded prec emax m e = true ->
  canonical_mantissa prec emax m e = true /\ -1074 <= e <= 971.
Proof.
  unfold bounded. intro H. apply andb_true_iff in H. destruct H as [C B].
  split; [exact C|]. apply canonical_mantissa_eq in C.
  apply Z.leb_le in B. change (emax - prec) with 971 in B. lia.
Qed.

(** Rounding an integer that is at least (at most) a representable number
    gives at least (at most) that number. *)
Lemma normalize_ge (s : bool) (m : positive) (e ez M : Z) :
  bounded prec emax m e = true -> -1074 <= ez <= e ->
  cond_Zopp s (Zpos m * 2 ^ (e - ez)) <= M ->
  SFleb (S754_finite s m e) (binary_normalize prec emax M ez false) = true.
Proof.
  intros Hb Hez HM. destruct (bounded_canonical m e Hb) as [C Hr].
  assert (Hv : Zpos m * scale e = Zpos m * 2 ^ (e - ez) * scale ez).
  { replace e with (ez + (e - ez)) at 1 by lia. rewrite scale_add by lia. lia. }
  assert (Hs : 0 < scale ez) by (apply scale_pos; lia).
  assert (Hp : 0 < 2 ^ (e - ez)) by (apply Z.pow_pos_nonneg; lia).
  destruct s; cbn [cond_Zopp] in HM.
  - destruct M as [|p|p]; cbn [binary_normalize].
    + reflexivity.
    + destruct (binary_round_spec false p ez (proj1 Hez)) as (m'' & e'' & -> & _).
      now destruct (e'' <=? 971).
    + destruct (round_down true m p e ez C (proj2 Hr) (proj1 Hez))
        as (m'' & e'' & -> & Hord).
      * rewrite Hv. apply Z.mul_le_mono_nonneg_r; lia.
      * now apply SFleb_finite_neg.
  - destruct M as [|p|p]; [lia| |lia]. cbn [binary_normalize].
    destruct (round_up false m p e ez C (proj1 Hez)) as [->|(m'' & e'' & -> & Hord)].
    + rewrite Hv. apply Z.mul_le_mono_nonneg_r; lia.
    + reflexivity.
    + now apply SFleb_finite_pos.
Qed.

Lemma normalize_le (s : bool) (m : positive) (e ez M : Z) :
  bounded prec emax m e = true -> -1074 <= ez <= e ->
  M <= cond_Zopp s (Zpos m * 2 ^ (e - ez)) ->
  SFleb (binary_normalize prec emax M ez false) (S754_finite s m e) = true.
Proof.
  intros Hb Hez HM. destruct (bounded_canonical m e Hb) as [C Hr].
  assert (Hv : Zpos m * scale e = Zpos m * 2 ^ (e - ez) * scale ez).
  { replace e with (ez + (e - ez)) at 1 by lia. rewrite scale_add by lia. lia. }
  assert (Hs : 0 < scale ez) by (apply scale_pos; lia).
  assert (Hp : 0 < 2 ^ (e - ez)) by (apply Z.pow_pos_nonneg; lia).
  destruct s; cbn [cond_Zopp] in HM.
  - destruct M as [|p|p]; [lia|lia|]. cbn [binary_normalize].
    destruct (round_up true m p e ez C (proj1 Hez)) as [->|(m'' & e'' & -> & Hord)].
    + rewrite Hv. apply Z.mul_le_mono_nonneg_r; lia.
    + reflexivity.
    + now apply SFleb_finite_neg.
  - destruct M as [|p|p]; cbn [binary_normalize].
    + reflexivity.
    + destruct (round_down false m p e ez C (proj2 Hr) (proj1 Hez))
        as (m'' & e'' & -> & Hord).
      * rewrite Hv. apply Z.mul_le_mono_nonneg_r; lia.
      * now apply SFleb_finite_pos.
    + destruct (binary_round_spec true p ez (proj1 Hez)) as (m'' & e'' & -> & _).
      now destruct (e'' <=? 971).
Qed.

Lemma SFadd_finite (sx sy : bool) (mx my : positive) (ex ey : Z) :
  SFadd prec emax (S754_finite sx mx ex) (S754_finite sy my ey)
  = binary_normalize prec emax
      (cond_Zopp sx (Zpos mx * 2 ^ (ex - Z.min ex ey))
       + cond_Zopp sy (Zpos my * 2 ^ (ey - Z.min ex ey)))
      (Z.min ex ey) false.
Proof.
  unfold SFadd.
  rewrite (proj2 (shl_align_spec mx ex (Z.min ex ey))).
  rewrite (proj2 (shl_align_spec my ey (Z.min ex ey))).
  replace (Z.min ex (Z.min ex ey)) with (Z.min ex ey) by lia.
  replace (Z.min ey (Z.min ex ey)) with (Z.min ex ey) by lia.
  reflexivity.
Qed.

(** Adding a number that is not negative does not decrease. *)
Lemma SFadd_ge_l (x : spec_float) (my : positive) (ey : Z) :
  SpecFloat.valid_binary prec emax x = true -> bounded prec emax my ey = true ->
  x <> S754_nan ->
  SFleb x (SFadd prec emax x (S754_finite false my ey)) = true.
Proof.
  intros Vx Vy Hx. destruct x as [s|s| |s m e].
  - cbn. now destruct s.
  - cbn. now destruct s.
  - congruence.
  - rewrite SFadd_finite. cbn [SpecFloat.valid_binary] in Vx.
    destruct (bounded_canonical m e Vx) as [_ Hr].
    destruct (bounded_canonical my ey Vy) as [_ Hr'].
    apply normalize_ge; [exact Vx|lia|]. cbn [cond_Zopp].
    assert (0 < 2 ^ (ey - Z.min e ey)) by (apply Z.pow_pos_nonneg; lia).
    lia.
Qed.

Lemma SFadd_ge_r (y : spec_float) (mx : positive) (ex : Z) :
  SpecFloat.valid_binary prec emax y = true -> bounded prec emax mx ex = true ->
  y <> S754_nan ->
  SFleb y (SFadd prec emax (S754_finite false mx ex) y) = true.
Proof.
  intros Vy Vx Hy. destruct y as [s|s| |s m e].
  - cbn. now destruct s.
  - cbn. now destruct s.
  - congruence.
  - rewrite SFadd_finite. cbn [SpecFloat.valid_binary] in Vy.
    destruct (bounded_canonical m e Vy) as [_ Hr].
    destruct (bounded_canonical mx ex Vx) as [_ Hr'].
    rewrite Z.min_comm, Z.add_comm.
    apply normalize_ge; [exact Vy|lia|]. cbn [cond_Zopp].
    assert (0 < 2 ^ (ex - Z.min e ex)) by (apply Z.pow_pos_nonneg; lia).
    lia.
Qed.

End RoundingIntegers.

(** ** Order and signs of binary64 sums, differences, products and quotients *)

Lemma SFleb_refl (x : spec_float) : x <> S754_nan -> SFleb x x = true.
Proof.
  destruct x as [s|s| |s m e]; intro H; try congruence.
  - reflexivity.
  - now destruct s.
  - unfold SFleb, SFcompare. rewrite Z.compare_refl.
    fold (Pos.compare m m). rewrite Pos.compare_refl. now destruct s.
Qed.

Lemma isNaN_spec (x : float) : isNaN x = false <-> Prim2SF x <> S754_nan.
Proof.
  unfold isNaN. rewrite eqb_spec. unfold SFeqb.
  destruct (Prim2SF x) as [s|s| |s m e] eqn:E; cbn.
  - split; [discriminate|reflexivity].
  - destruct s; (split; [discriminate|reflexivity]).
  - split; [discriminate|congruence].
  - rewrite Z.compare_refl. fold (Pos.compare m m). rewrite Pos.compare_refl.
    destruct s; (split; [discriminate|reflexivity]).
Qed.

(** The kinds of binary64 numbers that are [>= 0]. *)
Lemma nonneg_kind (x : float) :
  (0 <=? x) = true <->
  (exists s, Prim2SF x = S754_zero s) \/ Prim2SF x = S754_infinity false \/
  (exists m e, Prim2SF x = S754_finite false m e).
Proof.
  rewrite leb_spec. change (Prim2SF 0) with (S754_zero false).
  destruct (Prim2SF x) as [s|[|]| |[|] m e]; cbn; split; intro H;
    try discriminate; try reflexivity; eauto;
    destruct H as [[s' H]|[H|(m' & e' & H)]]; discriminate.
Qed.

(** Adding a number that is not negative does not decrease: on the
    right ... *)
Lemma add_nonneg_r (x y : float) :
  (0 <=? y) = true -> isNaN (x + y) = false -> (x <=? x + y) = true.
Proof.
  intros Hy Hn. apply isNaN_spec in Hn. apply nonneg_kind in Hy.
  rewrite leb_spec. rewrite add_spec in *.
  pose proof (Prim2SF_valid x) as Vx. pose proof (Prim2SF_valid y) as Vy.
  destruct (Prim2SF x) as [sx|sx| |sx mx ex] eqn:Ex;
    destruct Hy as [[s Ey]|[Ey|(m & e & Ey)]]; rewrite Ey in *;
    try (exfalso; apply Hn; reflexivity).
  - now destruct sx, s.
  - reflexivity.
  - reflexivity.
  - now destruct sx.
  - destruct sx; [exfalso; apply Hn; reflexivity|reflexivity].
  - now destruct sx.
  - apply SFleb_refl. discriminate.
  - now destruct sx.
  - apply SFadd_ge_l; [exact Vx|exact Vy|discriminate].
Qed.

(** ... and on the left. *)
Lemma add_nonneg_l (x y : float) :
  (0 <=? x) = true -> isNaN (x + y) = false -> (y <=? x + y) = true.
Proof.
  intros Hx Hn. apply isNaN_spec in Hn. apply nonneg_kind in Hx.
  rewrite leb_spec. rewrite add_spec in *.
  pose proof (Prim2SF_valid x) as Vx. pose proof (Prim2SF_valid y) as Vy.
  destruct (Prim2SF y) as [sy|sy| |sy my ey] eqn:Ey;
    destruct Hx as [[s Ex]|[Ex|(m & e & Ex)]]; rewrite Ex in *;
    try (exfalso; apply Hn; reflexivity).
  - now destruct sy, s.
  - reflexivity.
  - reflexivity.
  - now destruct sy.
  - destruct sy; [exfalso; apply Hn; reflexivity|reflexivity].
  - now destruct sy.
  - apply SFleb_refl. discriminate.
  - now destruct sy.
  - apply SFadd_ge_r; [exact Vy|exact Vx|discriminate].
Qed.

(** *** Signs of products, quotients, sums and differences *)

Lemma round_aux_shape (s : bool) (m e : Z) (l : location) :
  let r := binary_round_aux prec emax s m e l in
  r = S754_zero s \/ r = S754_infinity s \/ r = S754_nan \/
  exists m' e', r = S754_finite s m' e'.
Proof.
  unfold binary_round_aux.
  destruct (shr_fexp prec emax m e l) as [mrs' e'].
  destruct (shr_fexp prec emax _ e' loc_Exact) as [mrs'' e''].
  destruct (shr_m mrs'') as [|q|q]; cbv zeta.
  - now left.
  - destruct (e'' <=? emax - prec)%Z.
    + right. right. right. now exists q, e''.
    + right. now left.
  - right. right. now left.
Qed.

Lemma nonneg_shape (x : float) (r : spec_float) :
  Prim2SF x = r ->
  ((exists s, r = S754_zero s) \/ r = S754_infinity false \/ r = S754_nan \/
   exists m' e', r = S754_finite false m' e') ->
  isNaN x = false -> (0 <=? x) = true.
Proof.
  intros E H Hn. apply isNaN_spec in Hn. apply nonneg_kind. rewrite E in *.
  destruct H as [[s ->]|[->|[->|(m' & e' & ->)]]]; eauto. congruence.
Qed.

Lemma pos_kind (x : float) :
  (0 <? x) = true <->
  Prim2SF x = S754_infinity false \/
  (exists m e, Prim2SF x = S754_finite false m e).
Proof.
  rewrite ltb_spec. change (Prim2SF 0) with (S754_zero false).
  destruct (Prim2SF x) as [s|[|]| |[|] m e]; cbn; split; intro H;
    try discriminate; try reflexivity; eauto;
    destruct H as [H|(m' & e' & H)]; discriminate.
Qed.

Lemma nonneg_is_number (x : float) : (0 <=? x) = true -> isNaN x = false.
Proof.
  intro H. apply isNaN_spec. apply nonneg_kind in H.
  destruct H as [[s H]|[H|(m & e & H)]]; rewrite H; discriminate.
Qed.

Lemma round_aux_nonneg (m e : Z) (l : location) :
  let r := binary_round_aux prec emax false m e l in
  (exists s, r = S754_zero s) \/ r = S754_infinity false \/ r = S754_nan \/
  exists m' e', r = S754_finite false m' e'.
Proof.
  destruct (round_aux_shape false m e l) as [H|[H|[H|H]]]; cbv zeta in *; eauto.
Qed.

Lemma mul_nonneg (a b : float) :
  (0 <=? a) = true -> (0 <=? b) = true -> isNaN (a * b) = false ->
  (0 <=? a * b) = true.
Proof.
  intros Ha Hb Hn. apply nonneg_kind in Ha, Hb.
  apply (nonneg_shape _ _ (mul_spec a b)); [|exact Hn].
  destruct Ha as [[sa Ea]|[Ea|(ma & ea & Ea)]];
    destruct Hb as [[sb Eb]|[Eb|(mb & eb & Eb)]]; rewrite Ea, Eb;
    unfold SF64mul, SFmul; eauto 6.
  apply round_aux_nonneg.
Qed.

Lemma div_nonneg (a b : float) :
  (0 <=? a) = true -> (0 <? b) = true -> isNaN (a / b) = false ->
  (0 <=? a / b) = true.
Proof.
  intros Ha Hb Hn. apply nonneg_kind in Ha. apply pos_kind in Hb.
  apply (nonneg_shape _ _ (div_spec a b)); [|exact Hn].
  destruct Ha as [[sa Ea]|[Ea|(ma & ea & Ea)]];
    destruct Hb as [Eb|(mb & eb & Eb)]; rewrite Ea, Eb;
    unfold SF64div, SFdiv; eauto 6.
  destruct (SFdiv_core_binary prec emax (Zpos ma) ea (Zpos mb) eb) as [[mz ez] lz].
  apply round_aux_nonneg.
Qed.

Lemma binary_round_nonneg (p : positive) (ez : Z) :
  (-1074 <= ez)%Z ->
  let r := binary_round prec emax false p ez in
  r = S754_infinity false \/ exists m' e', r = S754_finite false m' e'.
Proof.
  intro H. destruct (binary_round_spec false p ez H) as (m'' & e'' & E & _).
  cbv zeta. rewrite E. destruct (e'' <=? 971)%Z; eauto.
Qed.

Lemma add_nonneg (x y : float) :
  (0 <=? x) = true -> (0 <=? y) = true -> (0 <=? x + y) = true.
Proof.
  intros Hx Hy. apply nonneg_kind in Hx, Hy. apply nonneg_kind.
  rewrite add_spec.
  pose proof (Prim2SF_valid x) as Vx. pose proof (Prim2SF_valid y) as Vy.
  destruct Hx as [[sx Ex]|[Ex|(mx & ex & Ex)]];
    destruct Hy as [[sy Ey]|[Ey|(my & ey & Ey)]]; rewrite Ex, Ey in *;
    try (cbn; eauto 6; fail).
  - destruct sx, sy; cbn; eauto.
  - unfold SF64add. rewrite SFadd_finite. cbn [cond_Zopp].
    cbn [SpecFloat.valid_binary] in Vx, Vy.
    destruct (bounded_canonical mx ex Vx) as [_ Hrx].
    destruct (bounded_canonical my ey Vy) as [_ Hry].
    assert (0 < 2 ^ (ex - Z.min ex ey))%Z by (apply Z.pow_pos_nonneg; lia).
    assert (0 < 2 ^ (ey - Z.min ex ey))%Z by (apply Z.pow_pos_nonneg; lia).
    destruct (Z.pos mx * 2 ^ (ex - Z.min ex ey)
              + Z.pos my * 2 ^ (ey - Z.min ex ey))%Z as [|p|p] eqn:E; [lia| |lia].
    cbn [binary_normalize]. right.
    destruct (binary_round_nonneg p (Z.min ex ey)) as [->|(m' & e' & ->)];
      [lia| |]; eauto.
Qed.

Lemma SFsub_finite (sx sy : bool) (mx my : positive) (ex ey : Z) :
  SFsub prec emax (S754_finite sx mx ex) (S754_finite sy my ey)
  = binary_normalize prec emax
      (cond_Zopp sx (Zpos mx * 2 ^ (ex - Z.min ex ey))
       - cond_Zopp sy (Zpos my * 2 ^ (ey - Z.min ex ey)))
      (Z.min ex ey) false.
Proof.
  unfold SFsub.
  rewrite (proj2 (shl_align_spec mx ex (Z.min ex ey))).
  rewrite (proj2 (shl_align_spec my ey (Z.min ex ey))).
  replace (Z.min ex (Z.min ex ey)) with (Z.min ex ey) by lia.
  replace (Z.min ey (Z.min ex ey)) with (Z.min ex ey) by lia.
  reflexivity.
Qed.

Lemma SFleb_finite_pos_inv (m1 m2 : positive) (e1 e2 : Z) :
  SFleb (S754_finite false m1 e1) (S754_finite false m2 e2) = true ->
  (e1 < e2)%Z \/ (e1 = e2 /\ (m1 <= m2)%positive).
Proof.
  unfold SFleb, SFcompare. destruct (Z.compare_spec e1 e2) as [E|L|G].
  - fold (Pos.compare m1 m2). destruct (Pos.compare_spec m1 m2); intro H';
      try discriminate; right; split; try assumption; lia.
  - now left.
  - discriminate.
Qed.

(** The numbers above a positive finite number. *)
Lemma above_finite (y x : float) (my : positive) (ey : Z) :
  Prim2SF y = S754_finite false my ey -> (y <=? x) = true ->
  Prim2SF x = S754_infinity false \/
  exists mx ex, Prim2SF x = S754_finite false mx ex /\
                ((ey < ex)%Z \/ (ey = ex /\ (my <= mx)%positive)).
Proof.
  intros Ey H. rewrite leb_spec, Ey in H.
  destruct (Prim2SF x) as [s|[|]| |[|] mx ex]; try discriminate; auto.
  right. exists mx, ex. split; [reflexivity|]. now apply SFleb_finite_pos_inv.
Qed.

Lemma scaled_order (m1 m2 : positive) (e1 e2 ez : Z) :
  (-1074 <= ez)%Z -> (ez <= e1)%Z -> (ez <= e2)%Z ->
  (Zpos m1 * scale e1 <= Zpos m2 * scale e2)%Z ->
  (Zpos m1 * 2 ^ (e1 - ez) <= Zpos m2 * 2 ^ (e2 - ez))%Z.
Proof.
  intros Hz H1 H2 H.
  replace e1 with (ez + (e1 - ez))%Z in H at 1 by lia.
  replace e2 with (ez + (e2 - ez))%Z in H at 1 by lia.
  rewrite !scale_add in H by lia.
  pose proof (scale_pos ez Hz) as Hs.
  apply (mul_scale_le_inv _ _ (scale ez)); [exact Hs|]. lia.
Qed.

(** A difference of a number and a positive finite number below it is not
    negative. *)
Lemma sub_nonneg (x y : float) (my : positive) (ey : Z) :
  Prim2SF y = S754_finite false my ey -> (y <=? x) = true ->
  (0 <=? x - y) = true.
Proof.
  intros Ey H. apply nonneg_kind. rewrite sub_spec.
  pose proof (Prim2SF_valid x) as Vx. pose proof (Prim2SF_valid y) as Vy.
  destruct (above_finite y x my ey Ey H) as [Ex|(mx & ex & Ex & Hord)];
    rewrite Ex, Ey in *.
  - cbn. auto.
  - unfold SF64sub. rewrite SFsub_finite. cbn [cond_Zopp].
    cbn [SpecFloat.valid_binary] in Vx, Vy.
    destruct (bounded_canonical mx ex Vx) as [Cx Hrx].
    destruct (bounded_canonical my ey Vy) as [Cy Hry].
    apply (canonical_order my mx ey ex Cy Cx) in Hord.
    apply (scaled_order my mx ey ex (Z.min ex ey)) in Hord; [|lia|lia|lia].
    destruct (Z.pos mx * 2 ^ (ex - Z.min ex ey)
              - Z.pos my * 2 ^ (ey - Z.min ex ey))%Z as [|p|p] eqn:E; [| |lia].
    + cbn. eauto.
    + cbn [binary_normalize]. right.
      destruct (binary_round_nonneg p (Z.min ex ey)) as [->|(m' & e' & ->)];
        [lia| |]; eauto.
Qed.

Lemma Prim2SF_two52 : Prim2SF two52 = S754_finite false 4503599627370496 0.
Proof. reflexivity. Qed.

Lemma Prim2SF_one : Prim2SF 1 = S754_finite false 4503599627370496 (-52).
Proof. reflexivity. Qed.

(** Above 2^52 every binary64 number is an integer: a positive difference
    with 2^52 is at least 1. *)
Lemma one_le_sub_two52 (a : float) :
  (two52 <=? a) = true -> (0 <? a - two52) = true -> (1 <=? a - two52) = true.
Proof.
  intros H Hpos. rewrite leb_spec, Prim2SF_one. rewrite ltb_spec in Hpos.
  rewrite sub_spec in *.
  pose proof (Prim2SF_valid a) as Va.
  destruct (above_finite two52 a _ _ Prim2SF_two52 H) as [Ea|(ma & ea & Ea & Hord)];
    rewrite Ea, Prim2SF_two52 in *.
  - reflexivity.
  - unfold SF64sub in *. rewrite SFsub_finite in *. cbn [cond_Zopp] in *.
    cbn [SpecFloat.valid_binary] in Va.
    destruct (bounded_canonical ma ea Va) as [Ca Hra].
    assert (Hea : (0 <= ea)%Z) by lia.
    replace (Z.min ea 0) with 0%Z in * by lia.
    assert (Hval : (4503599627370496 * 2 ^ (0 - 0) <= Z.pos ma * 2 ^ (ea - 0))%Z).
    { apply (scaled_order _ _ 0 ea 0); [lia|lia|lia|].
      apply canonical_order; [reflexivity|exact Ca|exact Hord]. }
    change (2 ^ (0 - 0))%Z with 1%Z in *.
    destruct (Z.pos ma * 2 ^ (ea - 0) - 4503599627370496 * 1)%Z as [|p|p] eqn:E;
      [discriminate| |lia].
    cbn [binary_normalize] in *.
    destruct (round_up false 4503599627370496 p (-52) 0)
      as [->|(m'' & e'' & -> & Hlex)].
    + reflexivity.
    + lia.
    + change (scale 0) with (2 ^ 52 * scale (-52))%Z.
      change (2 ^ 52)%Z with 4503599627370496%Z.
      assert (0 < scale (-52))%Z by (apply scale_pos; lia).
      nia.
    + reflexivity.
    + now apply SFleb_finite_pos.
Qed.

(** 0 <= p < t makes t positive. *)
Lemma nonneg_ltb_pos (p t : float) :
  (0 <=? p) = true -> (p <? t) = true -> (0 <? t) = true.
Proof.
  intros Hp Hlt. apply nonneg_kind in Hp. apply pos_kind.
  rewrite ltb_spec in Hlt.
  destruct Hp as [[s E]|[E|(m & e & E)]]; rewrite E in Hlt;
    destruct (Prim2SF t) as [s'|[|]| |[|] m' e']; try discriminate; eauto.
Qed.

(** [Math.floor] of a number that is not negative is not negative. *)
Lemma floor_nonneg_b64 (p : float) : (0 <=? p) = true -> (0 <=? floor p) = true.
Proof.
  intro Hp. unfold floor.
  destruct (abs p <? two52); [|exact Hp].
  rewrite (nonneg_not_neg p Hp).
  set (a := p + two52). cbv zeta.
  assert (Ha : (two52 <=? a) = true).
  { apply add_nonneg_l; [exact Hp|]. apply nonneg_is_number.
    apply add_nonneg; [exact Hp|reflexivity]. }
  destruct (a - two52 =? p); [exact Hp|].
  destruct (p <? a - two52) eqn:Hlt.
  - apply (sub_nonneg _ 1 _ _ Prim2SF_one).
    apply one_le_sub_two52; [exact Ha|].
    now apply (nonneg_ltb_pos p).
  - now apply (sub_nonneg _ two52 _ _ Prim2SF_two52).
Qed.

(** NaN spreads through the operations. *)
Lemma floor_number (x : float) : isNaN (floor x) = false -> isNaN x = false.
Proof.
  intro H. destruct (isNaN x) eqn:E; [|reflexivity]. rewrite <- H. symmetry.
  assert (En : Prim2SF x = S754_nan).
  { destruct (Prim2SF x) eqn:E'; try reflexivity;
      exfalso; assert (isNaN x = false) by (apply isNaN_spec; congruence);
      congruence. }
  unfold floor. rewrite ltb_spec, abs_spec, En. cbn. exact E.
Qed.

Lemma mul_number (a b : float) :
  isNaN (a * b) = false -> isNaN a = false /\ isNaN b = false.
Proof.
  rewrite !isNaN_spec, mul_spec. intro H.
  split; intro E; apply H; rewrite E; [reflexivity|].
  now destruct (Prim2SF a).
Qed.

Lemma div_number (a b : float) :
  isNaN (a / b) = false -> isNaN a = false /\ isNaN b = false.
Proof.
  rewrite !isNaN_spec, div_spec. intro H.
  split; intro E; apply H; rewrite E; [reflexivity|].
  now destruct (Prim2SF a).
Qed.

Lemma add_number (a b : float) :
  isNaN (a + b) = false -> isNaN a = false /\ isNaN b = false.
Proof.
  rewrite !isNaN_spec, add_spec. intro H.
  split; intro E; apply H; rewrite E; [reflexivity|].
  now destruct (Prim2SF a).
Qed.

(** The month's interest on a positive balance at a rate that is not
    negative is not negative. *)
Lemma interest_nonneg (balance rate : float) :
  (0 <? balance) = true -> (0 <=? rate) = true ->
  isNaN (floor (balance * (rate / 100 / 12))) = false ->
  (0 <=? floor (balance * (rate / 100 / 12))) = true.
Proof.
  intros Hb Hr Hn. apply floor_number in Hn.
  destruct (mul_number _ _ Hn) as [_ Hn2].
  destruct (div_number _ _ Hn2) as [Hn1 _].
  apply floor_nonneg_b64. apply mul_nonneg; [|  |exact Hn].
  - apply pos_kind in Hb. apply nonneg_kind. destruct Hb as [E|E]; auto.
  - apply div_nonneg; [|reflexivity|exact Hn2].
    apply div_nonneg; [exact Hr|reflexivity|exact Hn1].
Qed.

Lemma SFleb_finite_neg_inv (m1 m2 : positive) (e1 e2 : Z) :
  SFleb (S754_finite true m1 e1) (S754_finite true m2 e2) = true ->
  (e2 < e1)%Z \/ (e2 = e1 /\ (m2 <= m1)%positive).
Proof.
  unfold SFleb, SFcompare. destruct (Z.compare_spec e1 e2) as [E|L|G].
  - fold (Pos.compare m1 m2). destruct (Pos.compare_spec m1 m2); intro H';
      try discriminate; right; split; try (symmetry; assumption); lia.
  - discriminate.
  - now left.
Qed.

(** A difference [x - y] with [y <= x] is not negative. *)
Lemma sub_ordered (x y : float) :
  (y <=? x) = true -> isNaN (x - y) = false -> (0 <=? x - y) = true.
Proof.
  intros H Hn. apply isNaN_spec in Hn. apply nonneg_kind.
  rewrite leb_spec in H. rewrite sub_spec in *.
  pose proof (Prim2SF_valid x) as Vx. pose proof (Prim2SF_valid y) as Vy.
  destruct (Prim2SF y) as [sy|sy| |sy my ey];
    destruct (Prim2SF x) as [sx|sx| |sx mx ex];
    try discriminate;
    try (destruct sx, sy; cbn in *; try discriminate; eauto 6;
         exfalso; apply Hn; reflexivity);
    try (destruct sx; cbn in *; try discriminate; eauto 6; fail);
    try (destruct sy; cbn in *; try discriminate; eauto 6; fail).
  unfold SF64sub in *. rewrite SFsub_finite in *.
  cbn [SpecFloat.valid_binary] in Vx, Vy.
  destruct (bounded_canonical mx ex Vx) as [Cx Hrx].
  destruct (bounded_canonical my ey Vy) as [Cy Hry].
  assert (Px : (0 < Z.pos mx * 2 ^ (ex - Z.min ex ey))%Z).
  { assert (0 < 2 ^ (ex - Z.min ex ey))%Z by (apply Z.pow_pos_nonneg; lia). lia. }
  assert (Py : (0 < Z.pos my * 2 ^ (ey - Z.min ex ey))%Z).
  { assert (0 < 2 ^ (ey - Z.min ex ey))%Z by (apply Z.pow_pos_nonneg; lia). lia. }
  assert (HM : (0 <= cond_Zopp sx (Z.pos mx * 2 ^ (ex - Z.min ex ey))
                     - cond_Zopp sy (Z.pos my * 2 ^ (ey - Z.min ex ey)))%Z).
  { destruct sx, sy; cbn [cond_Zopp].
    - apply SFleb_finite_neg_inv in H.
      apply (canonical_order mx my ex ey Cx Cy) in H.
      apply (scaled_order mx my ex ey (Z.min ex ey)) in H; lia.
    - discriminate.
    - lia.
    - apply SFleb_finite_pos_inv in H.
      apply (canonical_order my mx ey ex Cy Cx) in H.
      apply (scaled_order my mx ey ex (Z.min ex ey)) in H; lia. }
  destruct (cond_Zopp sx (Z.pos mx * 2 ^ (ex - Z.min ex ey))
            - cond_Zopp sy (Z.pos my * 2 ^ (ey - Z.min ex ey)))%Z
    as [|p|p]; [| |lia].
  - cbn. eauto.
  - cbn [binary_normalize]. right.
    destruct (binary_round_nonneg p (Z.min ex ey)) as [->|(m' & e' & ->)];
      [lia| |]; eauto.
Qed.

(** *** The mirror images: numbers that are not positive *)

Lemma nonpos_kind (x : float) :
  (x <=? 0) = true <->
  (exists s, Prim2SF x = S754_zero s) \/ Prim2SF x = S754_infinity true \/
  (exists m e, Prim2SF x = S754_finite true m e).
Proof.
  rewrite leb_spec. change (Prim2SF 0) with (S754_zero false).
  destruct (Prim2SF x) as [s|[|]| |[|] m e]; cbn; split; intro H;
    try discriminate; try reflexivity; eauto;
    destruct H as [[s' H]|[H|(m' & e' & H)]]; discriminate.
Qed.

Lemma neg_kind (x : float) :
  (x <? 0) = true <->
  Prim2SF x = S754_infinity true \/
  (exists m e, Prim2SF x = S754_finite true m e).
Proof.
  rewrite ltb_spec. change (Prim2SF 0) with (S754_zero false).
  destruct (Prim2SF x) as [s|[|]| |[|] m e]; cbn; split; intro H;
    try discriminate; try reflexivity; eauto;
    destruct H as [H|(m' & e' & H)]; discriminate.
Qed.

Lemma nonpos_shape (x : float) (r : spec_float) :
  Prim2SF x = r ->
  ((exists s, r = S754_zero s) \/ r = S754_infinity true \/ r = S754_nan \/
   exists m' e', r = S754_finite true m' e') ->
  isNaN x = false -> (x <=? 0) = true.
Proof.
  intros E H Hn. apply isNaN_spec in Hn. apply nonpos_kind. rewrite E in *.
  destruct H as [[s ->]|[->|[->|(m' & e' & ->)]]]; eauto. congruence.
Qed.

Lemma round_aux_nonpos (m e : Z) (l : location) :
  let r := binary_round_aux prec emax true m e l in
  (exists s, r = S754_zero s) \/ r = S754_infinity true \/ r = S754_nan \/
  exists m' e', r = S754_finite true m' e'.
Proof.
  destruct (round_aux_shape true m e l) as [H|[H|[H|H]]]; cbv zeta in *; eauto.
Qed.

Lemma binary_round_nonpos (p : positive) (ez : Z) :
  (-1074 <= ez)%Z ->
  let r := binary_round prec emax true p ez in
  r = S754_infinity true \/ exists m' e', r = S754_finite true m' e'.
Proof.
  intro H. destruct (binary_round_spec true p ez H) as (m'' & e'' & E & _).
  cbv zeta. rewrite E. destruct (e'' <=? 971)%Z; eauto.
Qed.

Lemma mul_nonpos (a b : float) :
  (0 <=? a) = true -> (b <=? 0) = true -> isNaN (a * b) = false ->
  (a * b <=? 0) = true.
Proof.
  intros Ha Hb Hn. apply nonneg_kind in Ha. apply nonpos_kind in Hb.
  apply (nonpos_shape _ _ (mul_spec a b)); [|exact Hn].
  destruct Ha as [[sa Ea]|[Ea|(ma & ea & Ea)]];
    destruct Hb as [[sb Eb]|[Eb|(mb & eb & Eb)]]; rewrite Ea, Eb;
    unfold SF64mul, SFmul; eauto 6.
  apply round_aux_nonpos.
Qed.

Lemma div_nonpos (a b : float) :
  (a <=? 0) = true -> (0 <? b) = true -> isNaN (a / b) = false ->
  (a / b <=? 0) = true.
Proof.
  intros Ha Hb Hn. apply nonpos_kind in Ha. apply pos_kind in Hb.
  apply (nonpos_shape _ _ (div_spec a b)); [|exact Hn].
  destruct Ha as [[sa Ea]|[Ea|(ma & ea & Ea)]];
    destruct Hb as [Eb|(mb & eb & Eb)]; rewrite Ea, Eb;
    unfold SF64div, SFdiv; eauto 6.
  destruct (SFdiv_core_binary prec emax (Zpos ma) ea (Zpos mb) eb) as [[mz ez] lz].
  apply round_aux_nonpos.
Qed.

(** Adding a number that is not positive does not increase. *)
Lemma SFadd_le_l (x : spec_float) (my : positive) (ey : Z) :
  SpecFloat.valid_binary prec emax x = true -> bounded prec emax my ey = true ->
  x <> S754_nan ->
  SFleb (SFadd prec emax x (S754_finite true my ey)) x = true.
Proof.
  intros Vx Vy Hx. destruct x as [s|s| |s m e].
  - cbn. now destruct s.
  - cbn. now destruct s.
  - congruence.
  - rewrite SFadd_finite. cbn [SpecFloat.valid_binary] in Vx.
    destruct (bounded_canonical m e Vx) as [_ Hr].
    destruct (bounded_canonical my ey Vy) as [_ Hr'].
    apply normalize_le; [exact Vx|lia|]. cbn [cond_Zopp].
    assert (0 < 2 ^ (ey - Z.min e ey))%Z by (apply Z.pow_pos_nonneg; lia).
    lia.
Qed.

Lemma add_nonpos_r (x y : float) :
  (y <=? 0) = true -> isNaN (x + y) = false -> (x + y <=? x) = true.
Proof.
  intros Hy Hn. apply isNaN_spec in Hn. apply nonpos_kind in Hy.
  rewrite leb_spec. rewrite add_spec in *.
  pose proof (Prim2SF_valid x) as Vx. pose proof (Prim2SF_valid y) as Vy.
  destruct (Prim2SF x) as [sx|sx| |sx mx ex] eqn:Ex;
    destruct Hy as [[s Ey]|[Ey|(m & e & Ey)]]; rewrite Ey in *;
    try (exfalso; apply Hn; reflexivity).
  - now destruct sx, s.
  - reflexivity.
  - now destruct sx.
  - now destruct sx.
  - destruct sx; [reflexivity|exfalso; apply Hn; reflexivity].
  - now destruct sx.
  - apply SFleb_refl. discriminate.
  - now destruct sx.
  - apply SFadd_le_l; [exact Vx|exact Vy|discriminate].
Qed.

(** A difference [x - y] with [x <= y] is not positive. *)
Lemma sub_ordered_le (x y : float) :
  (x <=? y) = true -> isNaN (x - y) = false -> (x - y <=? 0) = true.
Proof.
  intros H Hn. apply isNaN_spec in Hn. apply nonpos_kind.
  rewrite leb_spec in H. rewrite sub_spec in *.
  pose proof (Prim2SF_valid x) as Vx. pose proof (Prim2SF_valid y) as Vy.
  destruct (Prim2SF y) as [sy|sy| |sy my ey];
    destruct (Prim2SF x) as [sx|sx| |sx mx ex];
    try discriminate;
    try (destruct sx, sy; cbn in *; try discriminate; eauto 6;
         exfalso; apply Hn; reflexivity);
    try (destruct sx; cbn in *; try discriminate; eauto 6; fail);
    try (destruct sy; cbn in *; try discriminate; eauto 6; fail).
  unfold SF64sub in *. rewrite SFsub_finite in *.
  cbn [SpecFloat.valid_binary] in Vx, Vy.
  destruct (bounded_canonical mx ex Vx) as [Cx Hrx].
  destruct (bounded_canonical my ey Vy) as [Cy Hry].
  assert (Px : (0 < Z.pos mx * 2 ^ (ex - Z.min ex ey))%Z).
  { assert (0 < 2 ^ (ex - Z.min ex ey))%Z by (apply Z.pow_pos_nonneg; lia). lia. }
  assert (Py : (0 < Z.pos my * 2 ^ (ey - Z.min ex ey))%Z).
  { assert (0 < 2 ^ (ey - Z.min ex ey))%Z by (apply Z.pow_pos_nonneg; lia). lia. }
  assert (HM : (cond_Zopp sx (Z.pos mx * 2 ^ (ex - Z.min ex ey))
                - cond_Zopp sy (Z.pos my * 2 ^ (ey - Z.min ex ey)) <= 0)%Z).
  { destruct sx, sy; cbn [cond_Zopp].
    - apply SFleb_finite_neg_inv in H.
      apply (canonical_order my mx ey ex Cy Cx) in H.
      apply (scaled_order my mx ey ex (Z.min ex ey)) in H; lia.
    - lia.
    - discriminate.
    - apply SFleb_finite_pos_inv in H.
      apply (canonical_order mx my ex ey Cx Cy) in H.
      apply (scaled_order mx my ex ey (Z.min ex ey)) in H; lia. }
  destruct (cond_Zopp sx (Z.pos mx * 2 ^ (ex - Z.min ex ey))
            - cond_Zopp sy (Z.pos my * 2 ^ (ey - Z.min ex ey)))%Z
    as [|p|p]; [|lia|].
  - cbn. eauto.
  - cbn [binary_normalize]. right.
    destruct (binary_round_nonpos p (Z.min ex ey)) as [->|(m' & e' & ->)];
      [lia| |]; eauto.
Qed.

(** [p - y <= -y] for [p <= 0] and a positive finite [y]. *)
Lemma sub_nonpos_l (p y : float) (my : positive) (ey : Z) :
  (p <=? 0) = true -> Prim2SF y = S754_finite false my ey ->
  SFleb (Prim2SF (p - y)) (S754_finite true my ey) = true.
Proof.
  intros Hp Ey. apply nonpos_kind in Hp. rewrite sub_spec, Ey.
  pose proof (Prim2SF_valid p) as Vp. pose proof (Prim2SF_valid y) as Vy.
  rewrite Ey in Vy. cbn [SpecFloat.valid_binary] in Vy.
  destruct Hp as [[s E]|[E|(m & e & E)]]; rewrite E in *.
  - unfold SF64sub, SFsub. cbn [negb]. apply SFleb_refl. discriminate.
  - reflexivity.
  - unfold SF64sub. rewrite SFsub_finite. cbn [cond_Zopp].
    cbn [SpecFloat.valid_binary] in Vp.
    destruct (bounded_canonical m e Vp) as [_ Hr].
    destruct (bounded_canonical my ey Vy) as [_ Hr'].
    rewrite Z.min_comm.
    apply normalize_le; [exact Vy|lia|]. cbn [cond_Zopp].
    assert (0 < 2 ^ (e - Z.min ey e))%Z by (apply Z.pow_pos_nonneg; lia).
    lia.
Qed.

(** [a + y <= 0] for [a <= -y] and a positive finite [y]. *)
Lemma add_back_nonpos (a y : float) (my : positive) (ey : Z) :
  SFleb (Prim2SF a) (S754_finite true my ey) = true ->
  Prim2SF y = S754_finite false my ey ->
  (a + y <=? 0) = true.
Proof.
  intros Ha Ey. apply nonpos_kind. rewrite add_spec, Ey.
  pose proof (Prim2SF_valid a) as Va. pose proof (Prim2SF_valid y) as Vy.
  rewrite Ey in Vy. cbn [SpecFloat.valid_binary] in Vy.
  destruct (Prim2SF a) as [s|[|]| |[|] ma ea]; try discriminate.
  - cbn. auto.
  - unfold SF64add. rewrite SFadd_finite. cbn [cond_Zopp].
    cbn [SpecFloat.valid_binary] in Va.
    destruct (bounded_canonical ma ea Va) as [Ca Hr].
    destruct (bounded_canonical my ey Vy) as [Cy Hr'].
    apply SFleb_finite_neg_inv in Ha.
    apply (canonical_order my ma ey ea Cy Ca) in Ha.
    apply (scaled_order my ma ey ea (Z.min ea ey)) in Ha; [|lia|lia|lia].
    destruct (- (Z.pos ma * 2 ^ (ea - Z.min ea ey))
              + Z.pos my * 2 ^ (ey - Z.min ea ey))%Z as [|q|q] eqn:E; [|lia|].
    + cbn. eauto.
    + cbn [binary_normalize]. right.
      destruct (binary_round_nonpos q (Z.min ea ey)) as [->|(m' & e' & ->)];
        [lia| |]; eauto.
Qed.

(** One less than a number that is not positive is not positive. *)
Lemma sub_one_nonpos (t : float) : (t <=? 0) = true -> (t - 1 <=? 0) = true.
Proof.
  intro Ht. apply nonpos_kind in Ht. apply nonpos_kind.
  rewrite sub_spec, Prim2SF_one.
  pose proof (Prim2SF_valid t) as Vt.
  destruct Ht as [[s E]|[E|(m & e & E)]]; rewrite E in *.
  - cbn. eauto.
  - cbn. eauto.
  - unfold SF64sub. rewrite SFsub_finite. cbn [cond_Zopp].
    cbn [SpecFloat.valid_binary] in Vt.
    destruct (bounded_canonical m e Vt) as [_ Hr].
    assert (0 < 2 ^ (e - Z.min e (-52)))%Z by (apply Z.pow_pos_nonneg; lia).
    assert (0 < 2 ^ (-52 - Z.min e (-52)))%Z by (apply Z.pow_pos_nonneg; lia).
    destruct (- (Z.pos m * 2 ^ (e - Z.min e (-52)))
              - 4503599627370496 * 2 ^ (-52 - Z.min e (-52)))%Z
      as [|q|q] eqn:E'; [lia|lia|].
    cbn [binary_normalize]. right.
    destruct (binary_round_nonpos q (Z.min e (-52))) as [->|(m' & e' & ->)];
      [lia| |]; eauto.
Qed.

(** [Math.floor] of a number that is not positive is not positive. *)
Lemma floor_nonpos (p : float) : (p <=? 0) = true -> (floor p <=? 0) = true.
Proof.
  intro Hp. unfold floor.
  destruct (abs p <? two52); [|exact Hp].
  destruct (p <? 0) eqn:Hneg; cbv zeta.
  - assert (Hat : (p - two52 + two52 <=? 0) = true).
    { apply (add_back_nonpos _ two52 4503599627370496 0);
        [|exact Prim2SF_two52].
      apply sub_nonpos_l; [exact Hp|exact Prim2SF_two52]. }
    destruct (p - two52 + two52 =? p); [exact Hp|].
    destruct (p <? p - two52 + two52); [|exact Hat].
    now apply sub_one_nonpos.
  - assert (Ez : exists s, Prim2SF p = S754_zero s).
    { apply nonpos_kind in Hp. destruct Hp as [H|[H|(m & e & H)]]; [exact H| |].
      - assert (Hc : (p <? 0) = true) by (apply neg_kind; now left). congruence.
      - assert (Hc : (p <? 0) = true) by (apply neg_kind; right; eauto). congruence. }
    destruct Ez as [s Ez].
    assert (Esum : p + two52 = two52).
    { apply Prim2SF_inj. rewrite add_spec, Ez, Prim2SF_two52. reflexivity. }
    rewrite Esum. change (two52 - two52) with 0.
    assert (E0 : (0 =? p) = true) by (rewrite eqb_spec, Ez; reflexivity).
    rewrite E0. exact Hp.
Qed.

(** The month's interest on a positive balance at a rate that is not
    positive is not positive. *)
Lemma interest_nonpos (balance rate : float) :
  (0 <? balance) = true -> (rate <=? 0) = true ->
  isNaN (floor (balance * (rate / 100 / 12))) = false ->
  (floor (balance * (rate / 100 / 12)) <=? 0) = true.
Proof.
  intros Hb Hr Hn. apply floor_number in Hn.
  destruct (mul_number _ _ Hn) as [_ Hn2].
  destruct (div_number _ _ Hn2) as [Hn1 _].
  apply floor_nonpos. apply mul_nonpos; [|  |exact Hn].
  - apply pos_kind in Hb. apply nonneg_kind. destruct Hb as [E|E]; auto.
  - apply div_nonpos; [|reflexivity|exact Hn2].
    apply div_nonpos; [exact Hr|reflexivity|exact Hn1].
Qed.

(** *** Sums and differences of integers are exact *)

Lemma cond_Zopp_mul (s : bool) (a c : Z) :
  (cond_Zopp s a * c = cond_Zopp s (a * c))%Z.
Proof. destruct s; cbn [cond_Zopp]; lia. Qed.

Lemma scale_0_split (e : Z) :
  (-1074 <= e <= 0)%Z -> (scale 0 = 2 ^ (- e) * scale e)%Z.
Proof.
  intro H. replace 0%Z with (e + - e)%Z at 1 by lia. apply scale_add; lia.
Qed.

Lemma scale_from_0 (e : Z) : (0 <= e)%Z -> (scale e = 2 ^ e * scale 0)%Z.
Proof.
  intro H. pose proof (scale_add 0 e ltac:(lia) H) as E.
  now rewrite Z.add_0_l in E.
Qed.

Lemma integerValue_represents (x : float) (n : Z) :
  integerValue x = Some n -> represents x n.
Proof.
  unfold integerValue, represents. pose proof (Prim2SF_valid x) as V.
  destruct (Prim2SF x) as [s|s| |s m e]; try discriminate.
  - intro H. injection H as <-. reflexivity.
  - cbn [SpecFloat.valid_binary] in V.
    destruct (bounded_canonical m e V) as [_ Hr]. cbn [SFrepresents].
    assert (G : forall q : Z, cond_Zopp s q = n ->
                (q * scale 0 = Z.pos m * scale e)%Z ->
                (cond_Zopp s (Z.pos m * scale e) = n * scale 0)%Z).
    { intros q <- Hq. rewrite cond_Zopp_mul. now f_equal. }
    destruct (0 <=? e)%Z eqn:He.
    + apply Z.leb_le in He. intro H.
      apply (G (Z.pos m * 2 ^ e)%Z).
      * injection H as H. exact H.
      * rewrite (scale_from_0 e He). ring.
    + apply Z.leb_gt in He.
      destruct (Z.pos m mod 2 ^ (- e) =? 0)%Z eqn:Hm; [|discriminate].
      apply Z.eqb_eq in Hm. intro H.
      apply (G (Z.pos m / 2 ^ (- e))%Z).
      * injection H as H. exact H.
      * rewrite (scale_0_split e) by lia.
        assert (Hp : (0 < 2 ^ (- e))%Z) by (apply Z.pow_pos_nonneg; lia).
        pose proof (Z.div_mod (Z.pos m) (2 ^ (- e)) ltac:(lia)) as Hdm.
        rewrite Hm, Z.add_0_r in Hdm. rewrite Hdm at 2. ring.
Qed.

Lemma represents_unique (x : float) (n n' : Z) :
  represents x n -> represents x n' -> n = n'.
Proof.
  unfold represents. destruct (Prim2SF x) as [s|s| |s m e]; cbn; try tauto.
  - congruence.
  - intros H H'. assert (0 < scale 0)%Z by (apply scale_pos; lia).
    rewrite H in H'. now apply Z.mul_reg_r in H'; [|lia].
Qed.

Lemma represents_eqb (x y : float) (n : Z) :
  represents x n -> represents y n -> (x =? y) = true.
Proof.
  unfold represents. rewrite eqb_spec.
  pose proof (Prim2SF_valid x) as Vx. pose proof (Prim2SF_valid y) as Vy.
  destruct (Prim2SF x) as [sx|sx| |sx mx ex]; cbn [SFrepresents]; try tauto;
    destruct (Prim2SF y) as [sy|sy| |sy my ey]; cbn [SFrepresents]; try tauto.
  - intros -> H. exfalso.
    cbn [SpecFloat.valid_binary] in Vy.
    destruct (bounded_canonical my ey Vy) as [_ Hr].
    assert (0 < scale ey)%Z by (apply scale_pos; lia).
    destruct sy; cbn [cond_Zopp] in H; lia.
  - intros H ->. exfalso.
    cbn [SpecFloat.valid_binary] in Vx.
    destruct (bounded_canonical mx ex Vx) as [_ Hr].
    assert (0 < scale ex)%Z by (apply scale_pos; lia).
    destruct sx; cbn [cond_Zopp] in H; lia.
  - intros Hx Hy. rewrite <- Hy in Hx.
    cbn [SpecFloat.valid_binary] in Vx, Vy.
    destruct (bounded_canonical mx ex Vx) as [Cx Hrx].
    destruct (bounded_canonical my ey Vy) as [Cy Hry].
    assert (0 < scale ex)%Z by (apply scale_pos; lia).
    assert (0 < scale ey)%Z by (apply scale_pos; lia).
    assert (Hv : (Z.pos mx * scale ex = Z.pos my * scale ey)%Z /\ sx = sy).
    { destruct sx, sy; cbn [cond_Zopp] in Hx; split; try reflexivity; lia. }
    destruct Hv as [Hv ->].
    assert (L1 : (Z.pos mx * scale ex <= Z.pos my * scale ey)%Z) by lia.
    assert (L2 : (Z.pos my * scale ey <= Z.pos mx * scale ex)%Z) by lia.
    apply (canonical_order mx my ex ey Cx Cy) in L1.
    apply (canonical_order my mx ey ex Cy Cx) in L2.
    assert (ex = ey /\ mx = my) as [-> ->] by lia.
    unfold SFeqb, SFcompare. rewrite Z.compare_refl.
    fold (Pos.compare my my). rewrite Pos.compare_refl. now destruct sy.
Qed.

(** Rounding an integer of magnitude at most 2^53 returns it. *)
Lemma round_exact (s : bool) (M : positive) (ez N : Z) :
  (-1074 <= ez)%Z -> (0 < N <= 2 ^ 53)%Z ->
  (Zpos M * scale ez = N * scale 0)%Z ->
  exists (m : positive) (e : Z),
    binary_round prec emax s M ez = S754_finite s m e /\
    (Zpos m * scale e = N * scale 0)%Z.
Proof.
  intros Hez [HN0 HN] Hv.
  destruct (binary_round_spec s M ez Hez) as (m'' & e'' & Hres & Hcan & Hee & Hfl & Hce).
  cbv zeta in *.
  set (e' := fexp prec emax (Zpos (digits2_pos M) + ez)) in *.
  destruct N as [|Np|Np]; [lia| |lia].
  pose proof (magnitude_unique M Np ez 0 Hez ltac:(lia) Hv) as Hmag.
  pose proof (digits2_pos_bounds Np) as [Hdlo Hdhi].
  assert (Hd : (Zpos (digits2_pos Np) <= 54)%Z).
  { destruct (Z_le_gt_dec (Zpos (digits2_pos Np)) 54) as [H|H]; [exact H|].
    assert (2 ^ 54 <= 2 ^ (Zpos (digits2_pos Np) - 1))%Z
      by (apply Z.pow_le_mono_r; lia).
    assert (2 ^ 53 < 2 ^ 54)%Z by (apply Z.pow_lt_mono_r; lia). lia. }
  assert (He' : e' = Z.max (Zpos (digits2_pos Np) + 0 - 53) (-1074)).
  { unfold e'. rewrite fexp_eq, Hmag. reflexivity. }
  assert (HY : exists Y : Z, (Y * scale e' = Z.pos Np * scale 0)%Z).
  { destruct (Z.eq_dec (Zpos (digits2_pos Np)) 54) as [E54|N54].
    - exists (2 ^ 52)%Z. assert (E1 : e' = 1%Z) by lia. rewrite E1.
      assert (Z.pos Np = 2 ^ 53)%Z.
      { rewrite E54 in Hdlo. change (54 - 1)%Z with 53%Z in Hdlo. lia. }
      rewrite (scale_from_0 1) by lia.
      rewrite H. change (2 ^ 1)%Z with 2%Z.
      change (2 ^ 53)%Z with (2 ^ 52 * 2)%Z. lia.
    - exists (Z.pos Np * 2 ^ (- e'))%Z.
      rewrite (scale_0_split e') by lia. lia. }
  destruct HY as [Y HY].
  assert (Hval : (Z.pos m'' * scale e'' = Z.pos Np * scale 0)%Z).
  { assert (Y * scale e' <= Z.pos m'' * scale e'')%Z by (apply Hfl; lia).
    assert (Z.pos m'' * scale e'' <= Y * scale e')%Z by (apply Hce; lia).
    lia. }
  exists m'', e''. split; [|exact Hval].
  rewrite Hres. replace (e'' <=? 971)%Z with true; [reflexivity|].
  symmetry. apply Z.leb_le.
  pose proof Hcan as Hc. apply canonical_mantissa_eq in Hc.
  assert (He'' : (-1074 <= e'')%Z) by lia.
  destruct (Z_le_gt_dec e'' 971) as [H|H]; [exact H|exfalso].
  assert (scale 53 < scale e'')%Z by (apply scale_lt; lia).
  assert (scale 53 = 2 ^ 53 * scale 0)%Z by (apply scale_from_0; lia).
  assert (0 < scale 0)%Z by (apply scale_pos; lia).
  assert (scale e'' <= Z.pos m'' * scale e'')%Z by nia.
  assert (Z.pos Np * scale 0 <= 2 ^ 53 * scale 0)%Z
    by (apply Z.mul_le_mono_nonneg_r; lia).
  lia.
Qed.

Lemma normalize_exact (M ez N : Z) :
  (-1074 <= ez)%Z -> (Z.abs N <= 2 ^ 53)%Z ->
  (M * scale ez = N * scale 0)%Z ->
  SFrepresents (binary_normalize prec emax M ez false) N.
Proof.
  intros Hez HN Hv.
  assert (Hs : (0 < scale ez)%Z) by (apply scale_pos; lia).
  assert (H0 : (0 < scale 0)%Z) by (apply scale_pos; lia).
  destruct M as [|p|p]; cbn [binary_normalize].
  - cbn [SFrepresents]. nia.
  - destruct (round_exact false p ez N Hez) as (m & e & -> & Hval); [nia|exact Hv|].
    cbn [SFrepresents cond_Zopp]. exact Hval.
  - destruct (round_exact true p ez (- N) Hez) as (m & e & -> & Hval); [nia|lia|].
    cbn [SFrepresents cond_Zopp]. rewrite Hval. ring.
Qed.

Lemma finite_value_at (s : bool) (m : positive) (e ez : Z) :
  (-1074 <= ez <= e)%Z ->
  (cond_Zopp s (Zpos m * 2 ^ (e - ez)) * scale ez
   = cond_Zopp s (Zpos m * scale e))%Z.
Proof.
  intro H. rewrite cond_Zopp_mul. f_equal.
  replace e with (ez + (e - ez))%Z at 2 by lia. rewrite scale_add by lia. lia.
Qed.

Lemma add_exact (a b : float) (na nb : Z) :
  represents a na -> represents b nb -> (Z.abs (na + nb) <= 2 ^ 53)%Z ->
  represents (a + b) (na + nb).
Proof.
  unfold represents. rewrite add_spec. intros Ha Hb Hn.
  pose proof (Prim2SF_valid a) as Va. pose proof (Prim2SF_valid b) as Vb.
  destruct (Prim2SF a) as [sa|sa| |sa ma ea]; cbn [SFrepresents] in Ha; try tauto;
    destruct (Prim2SF b) as [sb|sb| |sb mb eb]; cbn [SFrepresents] in Hb; try tauto.
  - subst. destruct sa, sb; reflexivity.
  - subst. cbn. exact Hb.
  - subst. cbn. rewrite Z.add_0_r. exact Ha.
  - unfold SF64add. rewrite SFadd_finite.
    cbn [SpecFloat.valid_binary] in Va, Vb.
    destruct (bounded_canonical ma ea Va) as [_ Hra].
    destruct (bounded_canonical mb eb Vb) as [_ Hrb].
    apply normalize_exact; [lia|exact Hn|].
    rewrite Z.mul_add_distr_r, !finite_value_at by lia. lia.
Qed.

Lemma sub_exact (a b : float) (na nb : Z) :
  represents a na -> represents b nb -> (Z.abs (na - nb) <= 2 ^ 53)%Z ->
  represents (a - b) (na - nb).
Proof.
  unfold represents. rewrite sub_spec. intros Ha Hb Hn.
  pose proof (Prim2SF_valid a) as Va. pose proof (Prim2SF_valid b) as Vb.
  destruct (Prim2SF a) as [sa|sa| |sa ma ea]; cbn [SFrepresents] in Ha; try tauto;
    destruct (Prim2SF b) as [sb|sb| |sb mb eb]; cbn [SFrepresents] in Hb; try tauto.
  - subst. destruct sa, sb; reflexivity.
  - subst. cbn [SF64sub SFsub SFrepresents].
    destruct sb; cbn [negb cond_Zopp] in *; lia.
  - subst. cbn. rewrite Z.sub_0_r. exact Ha.
  - unfold SF64sub. rewrite SFsub_finite.
    cbn [SpecFloat.valid_binary] in Va, Vb.
    destruct (bounded_canonical ma ea Va) as [_ Hra].
    destruct (bounded_canonical mb eb Vb) as [_ Hrb].
    apply normalize_exact; [lia|exact Hn|].
    rewrite Z.mul_sub_distr_r, !finite_value_at by lia. lia.
Qed.

Lemma isWhole_represents (x : float) :
  isWhole x = true -> exists n : Z, represents x n /\ (Z.abs n <= 2 ^ 51)%Z.
Proof.
  unfold isWhole. destruct (integerValue x) as [n|] eqn:E; [|discriminate].
  intro H. exists n. split; [now apply integerValue_represents|].
  now apply Z.leb_le.
Qed.

(** ** How a run that is not classified infinite ends *)

Lemma terminationChecks_Break_b64
    (p : SimulationParams) (prevBalance : float) (s s' : State.t) :
  terminationChecks p prevBalance s = Break s' ->
  (s' = s /\
   ((State.balance s <=? 0) = true \/
    (State.balance s <? monthlyRepayment p) = true \/
    ((0 <? monthlyNewCharge p) = true /\
     (abs (State.balance s - prevBalance) <=? 10) = true /\
     (State.balance s <=? monthlyNewCharge p * 1.5) = true /\
     (State.balance s <? monthlyRepayment p) = false))) \/
  s' = setInfinite s.
Proof.
  unfold terminationChecks.
  destruct (State.balance s <=? 0) eqn:E1.
  { intro H. injection H as <-. left. split; [reflexivity|]. now left. }
  destruct (State.balance s <? monthlyRepayment p) eqn:E2.
  { intro H. injection H as <-. left. split; [reflexivity|]. right. now left. }
  destruct ((0 <? monthlyNewCharge p)
            && (abs (State.balance s - prevBalance) <=? 10)) eqn:E3;
    [|discriminate].
  apply andb_true_iff in E3. destruct E3 as [E3 E3'].
  destruct (State.balance s <=? monthlyNewCharge p * 1.5) eqn:E4.
  { intro H. injection H as <-. left. split; [reflexivity|].
    right. right. repeat split; assumption. }
  destruct (monthlyRepayment p <? State.balance s); [|discriminate].
  intro H. injection H as <-. now right.
Qed.

Lemma terminationChecks_Continue_b64
    (p : SimulationParams) (prevBalance : float) (s s' : State.t) :
  terminationChecks p prevBalance s = Continue s' ->
  s' = s /\ (State.balance s <=? 0) = false.
Proof.
  unfold terminationChecks.
  destruct (State.balance s <=? 0) eqn:E1; [discriminate|].
  intro H. split; [|reflexivity].
  repeat match type of H with
  | (if ?c then _ else _) = _ => destruct c
  end; congruence.
Qed.

(** The new balance is never below zero, and is zero when it is [<= 0]. *)
Lemma newBalance_not_neg (p : SimulationParams) (s : State.t) :
  (newBalance p s <? 0) = false.
Proof.
  unfold newBalance. destruct (rawBalance p s <? 0) eqn:E; [reflexivity|exact E].
Qed.

Lemma finish_finite_b64 (s : State.t) :
  SimulationResult.isInfinite (finish s) = false ->
  (State.month s < MAX_MONTHS)%Z /\ State.isInfinite s = false.
Proof.
  unfold finish. cbn [SimulationResult.isInfinite].
  destruct (State.month s >=? MAX_MONTHS)%Z eqn:E; [discriminate|].
  intro H. split; [|exact H].
  rewrite Z.geb_leb in E. apply Z.leb_gt in E. exact E.
Qed.

Lemma finish_setInfinite (s : State.t) :
  SimulationResult.isInfinite (finish (setInfinite s)) = true.
Proof.
  unfold finish, setInfinite. cbn.
  destruct (State.month s >=? MAX_MONTHS)%Z; reflexivity.
Qed.

Lemma finish_runawayBreak (s : State.t) :
  SimulationResult.isInfinite (finish (runawayBreak s)) = true.
Proof.
  unfold finish, runawayBreak. cbn.
  destruct (State.month s + 1 >=? MAX_MONTHS)%Z; reflexivity.
Qed.

Lemma finite_final_state_b64 (p : SimulationParams) :
  (0 <=? initialBalance p) = true ->
  SimulationResult.isInfinite (finish (finalState p)) = false ->
  endsCleared p (State.data (finalState p)).
Proof.
  intro H0.
  apply (finalState_rule_b64 p
    (fun s => books s /\
              ((State.month s = 0%Z /\ State.balance s = initialBalance p) \/
               (State.balance s <=? 0) = false))
    (fun s => SimulationResult.isInfinite (finish s) = false ->
              endsCleared p (State.data s))).
  - split; [apply books_init_b64|]. left. split; reflexivity.
  - intros s s' _ _ Hb.
    pose proof (loopBody_Continue_b64 p s s' Hb) as [Hr ->].
    split; [apply books_applyMonth_b64|]. right.
    rewrite (loopBody_not_runaway_b64 p s Hr) in Hb.
    now apply terminationChecks_Continue_b64 in Hb.
  - intros s s' [(prev & Hprev & _ & Hpb & _) _] _ Hb Hfin.
    destruct (runaway p (State.balance s)) eqn:Hr.
    { unfold loopBody in Hb. rewrite Hr in Hb. injection Hb as <-.
      rewrite finish_runawayBreak in Hfin. discriminate. }
    rewrite (loopBody_not_runaway_b64 p s Hr) in Hb.
    apply terminationChecks_Break_b64 in Hb. destruct Hb as [[-> Hwhy] | ->].
    2:{ rewrite finish_setInfinite in Hfin. discriminate. }
    exists (monthRecord p s). unfold applyMonth in *.
    cbn [State.data State.balance] in *. rewrite lastRecord_push_b64.
    split; [reflexivity|]. intros _. cbn [monthRecord MonthData.balance].
    destruct Hwhy as [Hz|[Hlt|(Hch & Habs & Hlow & Hrep)]].
    + right. left. apply leb_not_ltb; [exact Hz|apply newBalance_not_neg].
    + left. now apply ltb_leb.
    + right. right. split; [exact Hch|].
      destruct (lastRecord_split_b64 _ _ Hprev) as [pre E].
      exists pre, prev, (monthRecord p s). rewrite E, <- app_assoc.
      split; [reflexivity|]. cbn [monthRecord MonthData.balance].
      rewrite Hpb. auto.
  - intros s [(last & Hlast & _ & Hlb & _) Hkind] Hc Hfin.
    exists last. split; [exact Hlast|]. intro Hnum. right. left. rewrite Hlb in *.
    destruct (finish_finite_b64 s Hfin) as [Hm _].
    assert (Hpos : (0 <? State.balance s) = false).
    { unfold loopCond in Hc. apply andb_false_iff in Hc.
      destruct Hc as [Hc|Hc]; [exact Hc|]. apply Z.ltb_ge in Hc. lia. }
    destruct Hkind as [[_ Hb0]|Hk].
    + rewrite Hb0 in *. now apply nonneg_not_pos.
    + rewrite (unordered_with_zero _ Hk Hpos) in Hnum. discriminate.
Qed.

(** C1 as stated fails: with initialBalance = 1200, monthlyNewCharge = 1000,
    monthlyRepayment = 1000 and rate 0, the balance stays at 1200; the run
    stops after month 1 as a low steady state, with isInfinite = false and
    a last balance that is neither <= 1000 nor 0. *)
Lemma low_steady_state_ends_above_repayment :
  SimulationResult.isInfinite (calculateSimulation steadyParams) = false /\
  exists last : MonthData.t,
    lastRecord (SimulationResult.data (calculateSimulation steadyParams))
      = Some last /\
    (MonthData.balance last <=? monthlyRepayment steadyParams) = false /\
    (MonthData.balance last =? 0) = false.
Proof.
  split; [vm_compute; reflexivity|].
  eexists. split; [vm_compute; reflexivity|]. split; reflexivity.
Qed.

(** The runaway guard does not keep the balance from overflowing: from
    1e308 with a charge of 1e308 the guard compares with 5e308 = Infinity,
    the balance becomes Infinity, then NaN, and the run ends after month 2
    with isInfinite = false. *)
Example overflow_ends_with_nan :
  SimulationResult.months (calculateSimulation overflowParams) = 2%Z /\
  SimulationResult.isInfinite (calculateSimulation overflowParams) = false /\
  exists last : MonthData.t,
    lastRecord (SimulationResult.data (calculateSimulation overflowParams))
      = Some last /\
    isNaN (MonthData.balance last) = true.
Proof.
  split; [vm_compute; reflexivity|]. split; [vm_compute; reflexivity|].
  eexists. split; [vm_compute; reflexivity|]. reflexivity.
Qed.

(** C1 (amended): for params with initialBalance >= 0, if the result has
    isInfinite = false then the last record's balance, when it is a number
    (not NaN), is <= monthlyRepayment, or == 0, or the run stopped in a low
    steady state: monthlyNewCharge > 0, the last balance within 10 of the
    balance of the record before it, at most monthlyNewCharge * 1.5 and not
    below monthlyRepayment. *)
Theorem finite_run_last_balance
    (p : SimulationParams)
    (Hinit : (0 <=? initialBalance p) = true)
    (Hfin : SimulationResult.isInfinite (calculateSimulation p) = false) :
  exists last : MonthData.t,
    lastRecord (SimulationResult.data (calculateSimulation p)) = Some last /\
    (isNaN (MonthData.balance last) = false ->
     (MonthData.balance last <=? monthlyRepayment p) = true \/
     (MonthData.balance last =? 0) = true \/
     lowSteadyState p (SimulationResult.data (calculateSimulation p))).
Proof. exact (finite_final_state_b64 p Hinit Hfin). Qed.

Lemma finite_run_last_balance_witness :
  exists last : MonthData.t,
    lastRecord (SimulationResult.data (calculateSimulation steadyParams)) = Some last /\
    ((MonthData.balance last <=? monthlyRepayment steadyParams) = true \/
     (MonthData.balance last =? 0) = true \/
     lowSteadyState steadyParams
       (SimulationResult.data (calculateSimulation steadyParams))).
Proof.
  assert (Hinit : (0 <=? initialBalance steadyParams) = true) by reflexivity.
  assert (Hfin : SimulationResult.isInfinite (calculateSimulation steadyParams)
                 = false) by (vm_compute; reflexivity).
  destruct (finite_run_last_balance steadyParams Hinit Hfin) as (last & Hl & H).
  exists last. split; [exact Hl|]. apply H.
  vm_compute in Hl. injection Hl as <-. reflexivity.
Defined.

(** ** Running totals along the trajectory *)

Lemma totalsStep_final_b64 (p : SimulationParams) :
  consecutive totalsStep (State.data (finalState p)).
Proof.
  apply (ledger_rule_b64 p
    (fun s => consecutive totalsStep (State.data s) /\
              exists last : MonthData.t,
                lastRecord (State.data s) = Some last /\
                MonthData.cumulativeInterest last = State.totalInterest s /\
                MonthData.cumulativePrincipal last = State.cumulativePrincipal s)).
  - intros s m b H. exact H.
  - split; [apply consecutive_single|]. eexists. repeat split.
  - intros s [Hcons (last & Hl & Hi & Hp)] _ _.
    unfold applyMonth.
    cbn [State.data State.totalInterest State.cumulativePrincipal]. split.
    + destruct (lastRecord_split_b64 _ _ Hl) as [pre E]. rewrite E in *.
      apply consecutive_push; [assumption|].
      unfold totalsStep, monthRecord. cbn. rewrite Hi, Hp.
      repeat split.
    + exists (monthRecord p s). rewrite lastRecord_push_b64. repeat split.
Qed.

(** C2 as stated fails for cumulativePrincipal: in scenario C the first
    month's interest (15000) exceeds the payment (1000), so the cumulative
    principal goes from 0 down to -14000. *)
Lemma cumulativePrincipal_decreases_scenarioC :
  exists a b : MonthData.t,
    nth_error (SimulationResult.data (calculateSimulation scenarioC)) 0 = Some a /\
    nth_error (SimulationResult.data (calculateSimulation scenarioC)) 1 = Some b /\
    MonthData.cumulativePrincipal b = (-14000) /\
    (MonthData.cumulativePrincipal a <=? MonthData.cumulativePrincipal b) = false.
Proof.
  eexists. eexists. split; [vm_compute; reflexivity|].
  split; [vm_compute; reflexivity|]. split; reflexivity.
Qed.

Lemma interest_nonneg_final (p : SimulationParams) :
  (0 <=? annualInterestRate p) = true ->
  Forall (fun r => isNaN (MonthData.interestPaid r) = false ->
                   (0 <=? MonthData.interestPaid r) = true)
    (State.data (finalState p)).
Proof.
  intro Hr.
  apply (ledger_rule_b64 p
    (fun s => Forall (fun r => isNaN (MonthData.interestPaid r) = false ->
                               (0 <=? MonthData.interestPaid r) = true)
                (State.data s))).
  - intros s m b H. exact H.
  - constructor; [|constructor]. intros _. reflexivity.
  - intros s Hall Hc _. unfold applyMonth. cbn [State.data].
    apply Forall_app. split; [assumption|].
    constructor; [|constructor]. cbn [monthRecord MonthData.interestPaid].
    unfold interestOf, monthlyRateOf. apply interest_nonneg; [|exact Hr].
    now apply loopCond_balance_b64.
Qed.

(** C2 (amended): along the trajectory the two cumulative fields are running
    sums: from each record to the next, cumulativeInterest grows by the
    month's interestPaid and cumulativePrincipal by the month's
    principalPaid, which is totalPaid - interestPaid (binary64 sums and
    difference).  When annualInterestRate >= 0, cumulativeInterest does not
    decrease from a record to the next, as long as it is a number (not NaN);
    cumulativePrincipal does not decrease over a month whose interest does
    not exceed its payment, and does not increase over a month whose
    interest is at least its payment, as long as it is a number. *)
Theorem cumulative_totals_along_trajectory
    (p : SimulationParams) (i : nat) (a b : MonthData.t)
    (Ha : nth_error (SimulationResult.data (calculateSimulation p)) i = Some a)
    (Hb : nth_error (SimulationResult.data (calculateSimulation p)) (S i) = Some b) :
  (MonthData.cumulativeInterest b
     = MonthData.cumulativeInterest a + MonthData.interestPaid b /\
   MonthData.cumulativePrincipal b
     = MonthData.cumulativePrincipal a + MonthData.principalPaid b /\
   MonthData.principalPaid b
     = MonthData.totalPaid b - MonthData.interestPaid b) /\
  ((0 <=? annualInterestRate p) = true ->
   isNaN (MonthData.cumulativeInterest b) = false ->
   (MonthData.cumulativeInterest a <=? MonthData.cumulativeInterest b) = true) /\
  ((MonthData.interestPaid b <=? MonthData.totalPaid b) = true ->
   isNaN (MonthData.cumulativePrincipal b) = false ->
   (MonthData.cumulativePrincipal a <=? MonthData.cumulativePrincipal b) = true) /\
  ((MonthData.totalPaid b <=? MonthData.interestPaid b) = true ->
   isNaN (MonthData.cumulativePrincipal b) = false ->
   (MonthData.cumulativePrincipal b <=? MonthData.cumulativePrincipal a) = true).
Proof.
  pose proof (totalsStep_final_b64 p i a b Ha Hb) as (Hi & Hp & Hd).
  split; [repeat split; assumption|]. split; [|split].
  - intros Hr Hn. rewrite Hi in *.
    apply add_nonneg_r; [|exact Hn].
    pose proof (interest_nonneg_final p Hr) as Hall.
    rewrite Forall_forall in Hall.
    apply Hall; [exact (nth_error_In _ _ Hb)|].
    exact (proj2 (add_number _ _ Hn)).
  - intros Hle Hn. rewrite Hp in *.
    apply add_nonneg_r; [|exact Hn]. rewrite Hd.
    apply sub_ordered; [exact Hle|]. rewrite <- Hd.
    exact (proj2 (add_number _ _ Hn)).
  - intros Hle Hn. rewrite Hp in *.
    apply add_nonpos_r; [|exact Hn]. rewrite Hd.
    apply sub_ordered_le; [exact Hle|]. rewrite <- Hd.
    exact (proj2 (add_number _ _ Hn)).
Qed.

Lemma cumulative_totals_along_trajectory_witness :
  exists a b : MonthData.t,
    nth_error (SimulationResult.data (calculateSimulation scenarioA)) 0 = Some a /\
    nth_error (SimulationResult.data (calculateSimulation scenarioA)) 1 = Some b /\
    (MonthData.cumulativeInterest a <=? MonthData.cumulativeInterest b) = true /\
    (MonthData.cumulativePrincipal a <=? MonthData.cumulativePrincipal b) = true.
Proof.
  destruct (nth_error (SimulationResult.data (calculateSimulation scenarioA)) 0)
    as [a|] eqn:Ha; [|exfalso; vm_compute in Ha; discriminate].
  destruct (nth_error (SimulationResult.data (calculateSimulation scenarioA)) 1)
    as [b|] eqn:Hb; [|exfalso; vm_compute in Hb; discriminate].
  exists a, b. split; [reflexivity|]. split; [reflexivity|].
  destruct (cumulative_totals_along_trajectory scenarioA 0 a b Ha Hb)
    as (_ & Hint & Hprin & _).
  vm_compute in Ha. injection Ha as <-.
  vm_compute in Hb. injection Hb as <-.
  split; [apply Hint; reflexivity|apply Hprin; reflexivity].
Defined.

(** ** The accounting identity *)

Lemma sumOf_push (field : MonthData.t -> float) (l : list MonthData.t)
    (x : MonthData.t) :
  sumOf field (l ++ [x]) = sumOf field l + field x.
Proof. unfold sumOf. rewrite fold_left_app. reflexivity. Qed.

Lemma ledgerSums_final (p : SimulationParams) : ledgerSums (finalState p).
Proof.
  apply ledger_rule_b64.
  - intros s m b H. exact H.
  - unfold ledgerSums, initState, sumOf. cbn.
    split; [|repeat split].
    + constructor; [|constructor]. cbn. lia.
    + eexists. repeat split.
  - intros s (Hall & Hpaid & Hint & Hprin & _) _ _.
    unfold ledgerSums, applyMonth.
    cbn [State.data State.totalPaid State.totalInterest
         State.cumulativePrincipal].
    rewrite !sumOf_push, <- Hpaid, <- Hint, <- Hprin.
    split; [|repeat split].
    + apply Forall_app. split; [assumption|].
      constructor; [|constructor]. intros _. reflexivity.
    + exists (monthRecord p s). rewrite lastRecord_push_b64. repeat split.
Qed.

(** C10 as stated fails on binary64 numbers: with monthlyRepayment = 0.1 on
    a balance of 1000 at 12%, the month-1 record has totalPaid 0.1,
    interestPaid 10 and principalPaid 0.1 - 10 = -9.9000000000000004, and
    10 + (-9.9000000000000004) is 0.099999999999999645, not 0.1. *)
Lemma payment_differs_from_interest_plus_principal :
  exists r : MonthData.t,
    nth_error (SimulationResult.data (calculateSimulation fractionParams)) 1
      = Some r /\
    MonthData.month r = 1%Z /\
    (MonthData.totalPaid r
     =? MonthData.interestPaid r + MonthData.principalPaid r) = false.
Proof.
  eexists. split; [vm_compute; reflexivity|]. split; reflexivity.
Qed.

Lemma pow2_51 : (2 ^ 51 = 2251799813685248)%Z.
Proof. reflexivity. Qed.

Lemma pow2_53 : (2 ^ 53 = 9007199254740992)%Z.
Proof. reflexivity. Qed.

(** With whole amounts, payment = interest + principal holds exactly. *)
Lemma whole_payment_identity (pay i : float) :
  isWhole i = true -> isWhole pay = true -> (pay =? i + (pay - i)) = true.
Proof.
  intros Hi Hp.
  destruct (isWhole_represents i Hi) as (ni & Ri & Bi).
  destruct (isWhole_represents pay Hp) as (np & Rp & Bp).
  rewrite pow2_51 in *.
  assert (Rd : represents (pay - i) (np - ni))
    by (apply sub_exact; [assumption|assumption|rewrite pow2_53; lia]).
  assert (Rs : represents (i + (pay - i)) (ni + (np - ni)))
    by (apply add_exact; [assumption|assumption|rewrite pow2_53; lia]).
  replace (ni + (np - ni))%Z with np in Rs by lia.
  exact (represents_eqb _ _ _ Rp Rs).
Qed.

Lemma exactLedger_final (p : SimulationParams) : exactLedger (finalState p).
Proof.
  apply ledger_rule_b64.
  - intros s m b H. exact H.
  - intros _. exists 0%Z, 0%Z. repeat split; rewrite ?pow2_51; lia.
  - intros s IH _ _ Hall. unfold applyMonth in *.
    cbn [State.data State.totalInterest State.cumulativePrincipal
         State.totalPaid] in *.
    rewrite forallb_app in Hall. apply andb_true_iff in Hall.
    destruct Hall as [Hpre Hrec]. cbn [forallb] in Hrec.
    rewrite andb_true_r in Hrec. unfold wholeRecord in Hrec.
    cbn [monthRecord MonthData.interestPaid MonthData.totalPaid
         MonthData.cumulativeInterest MonthData.cumulativePrincipal] in Hrec.
    apply andb_true_iff in Hrec. destruct Hrec as [Hrec H4].
    apply andb_true_iff in Hrec. destruct Hrec as [Hrec H3].
    apply andb_true_iff in Hrec. destruct Hrec as [H1 H2].
    destruct (IH Hpre) as (ni & np & Rti & Rcp & Rtp & Bi & Bp).
    destruct (isWhole_represents _ H1) as (n1 & R1 & B1).
    destruct (isWhole_represents _ H2) as (n2 & R2 & B2).
    destruct (isWhole_represents _ H3) as (n3 & R3 & B3).
    destruct (isWhole_represents _ H4) as (n4 & R4 & B4).
    rewrite pow2_51 in *.
    assert (Ri : represents (State.totalInterest s + interestOf p s) (ni + n1))
      by (apply add_exact; [assumption|assumption|rewrite pow2_53; lia]).
    assert (Rd : represents (principalOf p s) (n2 - n1))
      by (apply sub_exact; [assumption|assumption|rewrite pow2_53; lia]).
    assert (Rp : represents (State.cumulativePrincipal s + principalOf p s)
                   (np + (n2 - n1)))
      by (apply add_exact; [assumption|assumption|rewrite pow2_53; lia]).
    pose proof (represents_unique _ _ _ R3 Ri) as E3.
    pose proof (represents_unique _ _ _ R4 Rp) as E4.
    exists (ni + n1)%Z, (np + (n2 - n1))%Z.
    split; [exact Ri|]. split; [exact Rp|]. split; [|lia].
    replace (ni + n1 + (np + (n2 - n1)))%Z with (ni + np + n2)%Z by lia.
    apply add_exact; [assumption|assumption|rewrite pow2_53; lia].
Qed.

(** C10 (amended): in every record with month >= 1 principalPaid is the
    binary64 difference totalPaid - interestPaid, also when it is negative;
    when the month's interestPaid and totalPaid are whole numbers of
    magnitude at most 2^51, totalPaid == interestPaid + principalPaid holds
    exactly.  The totals are the sums, added month by month, of those
    fields: the result's totalPaid of the records' totalPaid, its
    totalInterest of their interestPaid, and the last record's
    cumulativePrincipal of their principalPaid, the last record's
    cumulativeInterest being the result's totalInterest; when every
    record's interestPaid, totalPaid, cumulativeInterest and
    cumulativePrincipal are whole numbers of magnitude at most 2^51, the
    result's totalPaid == totalInterest + the last record's
    cumulativePrincipal. *)
Theorem payment_is_interest_plus_principal (p : SimulationParams) :
  (forall r : MonthData.t,
     In r (SimulationResult.data (calculateSimulation p)) ->
     (1 <= MonthData.month r)%Z ->
     MonthData.principalPaid r
     = MonthData.totalPaid r - MonthData.interestPaid r /\
     (isWhole (MonthData.interestPaid r) = true ->
      isWhole (MonthData.totalPaid r) = true ->
      (MonthData.totalPaid r
       =? MonthData.interestPaid r + MonthData.principalPaid r) = true)) /\
  SimulationResult.totalPaid (calculateSimulation p)
    = sumOf MonthData.totalPaid (SimulationResult.data (calculateSimulation p)) /\
  SimulationResult.totalInterest (calculateSimulation p)
    = sumOf MonthData.interestPaid (SimulationResult.data (calculateSimulation p)) /\
  exists last : MonthData.t,
    lastRecord (SimulationResult.data (calculateSimulation p)) = Some last /\
    MonthData.cumulativePrincipal last
      = sumOf MonthData.principalPaid
          (SimulationResult.data (calculateSimulation p)) /\
    MonthData.cumulativeInterest last
      = SimulationResult.totalInterest (calculateSimulation p) /\
    (forallb wholeRecord (SimulationResult.data (calculateSimulation p)) = true ->
     (SimulationResult.totalPaid (calculateSimulation p)
      =? SimulationResult.totalInterest (calculateSimulation p)
         + MonthData.cumulativePrincipal last) = true).
Proof.
  destruct (ledgerSums_final p)
    as (Hall & Hpaid & Hint & Hprin & last & Hlast & Hli & Hlp).
  pose proof (exactLedger_final p) as Hexact.
  unfold calculateSimulation. fold (finalState p).
  cbn [finish SimulationResult.data SimulationResult.totalPaid
       SimulationResult.totalInterest].
  split; [|split; [exact Hpaid|split; [exact Hint|]]].
  - intros r Hin Hm. rewrite Forall_forall in Hall.
    pose proof (Hall r Hin Hm) as Hd. split; [exact Hd|].
    intros Hi Hp. rewrite Hd. now apply whole_payment_identity.
  - exists last. split; [exact Hlast|]. split; [rewrite Hlp; exact Hprin|].
    split; [exact Hli|]. intro Hw. rewrite Hlp.
    destruct (Hexact Hw) as (ni & np & Rti & Rcp & Rtp & Bi & Bp).
    rewrite pow2_51 in *.
    apply (represents_eqb _ _ (ni + np)); [exact Rtp|].
    apply add_exact; [assumption|assumption|rewrite pow2_53; lia].
Qed.

Lemma payment_is_interest_plus_principal_witness :
  (exists r : MonthData.t,
     nth_error (SimulationResult.data (calculateSimulation scenarioC)) 1 = Some r /\
     MonthData.principalPaid r = (-14000) /\
     MonthData.principalPaid r = MonthData.totalPaid r - MonthData.interestPaid r /\
     (MonthData.totalPaid r
      =? MonthData.interestPaid r + MonthData.principalPaid r) = true) /\
  (exists last : MonthData.t,
     lastRecord (SimulationResult.data (calculateSimulation scenarioC)) = Some last /\
     (SimulationResult.totalPaid (calculateSimulation scenarioC)
      =? SimulationResult.totalInterest (calculateSimulation scenarioC)
         + MonthData.cumulativePrincipal last) = true).
Proof.
  destruct (payment_is_interest_plus_principal scenarioC)
    as (Hrec & _ & _ & last & Hlast & _ & _ & Hsum).
  split.
  - destruct (nth_error (SimulationResult.data (calculateSimulation scenarioC)) 1)
      as [r|] eqn:Hr; [|exfalso; vm_compute in Hr; discriminate].
    exists r. split; [reflexivity|].
    assert (Hin : In r (SimulationResult.data (calculateSimulation scenarioC)))
      by exact (nth_error_In _ 1 Hr).
    vm_compute in Hr. injection Hr as <-.
    split; [reflexivity|].
    destruct (Hrec _ Hin) as [Hd Hw]; [cbn; lia|].
    split; [exact Hd|]. apply Hw; vm_compute; reflexivity.
  - exists last. split; [exact Hlast|]. apply Hsum. vm_compute. reflexivity.
Defined.

(** ** The estimator against the recurrence of the specification *)

Lemma recurrenceRound_done (interestOn : float -> float) (R : float) (st : Round) :
  roundDone st = true ->
  forall n : nat, Nat.iter n (recurrenceRound interestOn R) st = st.
Proof.
  intros Hd. induction n as [|n IH]; [reflexivity|].
  rewrite Nat.iter_succ, IH. unfold recurrenceRound. now rewrite Hd.
Qed.

Lemma recurrenceRound_open (R annualInterestRate balance total : float) :
  let interest := floor (balance * (annualInterestRate / 100 / 12)) in
  let balance' := balance - (paymentOf balance interest R - interest) in
  recurrenceRound (hoistedInterest annualInterestRate) R
    (mkRound balance total false)
  = mkRound balance' (total + interest) (balance' <=? 0).
Proof. reflexivity. Qed.

Lemma projectionLoop_recurrence (R annualInterestRate : float) :
  forall (n : nat) (balance total : float),
    projectionLoop n R (annualInterestRate / 100 / 12) balance total
    = roundInterest
        (Nat.iter n (recurrenceRound (hoistedInterest annualInterestRate) R)
           (mkRound balance total false)).
Proof.
  induction n as [|n IH]; intros balance total; [reflexivity|].
  rewrite Nat.iter_succ_r, recurrenceRound_open. cbn [projectionLoop].
  set (i := floor (balance * (annualInterestRate / 100 / 12))).
  destruct (balance - (paymentOf balance i R - i) <=? 0) eqn:E.
  - rewrite recurrenceRound_done by reflexivity. reflexivity.
  - apply IH.
Qed.

(** C5 as stated fails on binary64 numbers: on 10000 at 15% the claim's
    floor(balance * annualInterestRate / 100 / 12) is 125, while the code
    multiplies by the monthly rate 15 / 100 / 12 = 0.0125 rounded down, and
    floor(10000 * 0.012499999999999999) is 124; with a repayment of 5000 the
    code returns 190 and the claim's recurrence 191. *)
Lemma projected_interest_differs_from_claimed_recurrence :
  claimedInterest 15 10000 = 125 /\
  hoistedInterest 15 10000 = 124 /\
  calculateProjectedInterest 10000 5000 15 = 190 /\
  recurrence (claimedInterest 15) 10000 5000 = 191.
Proof. repeat split; vm_compute; reflexivity. Qed.

(** C5 (amended): for every balance > 0 (and every monthlyRepayment and
    annualInterestRate) calculateProjectedInterest is the recurrence that
    first computes the monthly rate annualInterestRate / 100 / 12 and then,
    each round, takes interest = floor(balance * monthly rate), the payment
    as monthlyRepayment capped at balance + interest, lowers the balance by
    payment - interest and sums the interest, stopping when the balance is
    <= 0 or after 600 rounds with the sum reached so far. *)
Theorem projected_interest_is_reference_recurrence
    (balance monthlyRepayment annualInterestRate : float)
    (Hbal : (0 <? balance) = true) :
  calculateProjectedInterest balance monthlyRepayment annualInterestRate
  = recurrence (hoistedInterest annualInterestRate) balance monthlyRepayment.
Proof.
  unfold calculateProjectedInterest, recurrence.
  rewrite (pos_not_nonpos balance Hbal).
  apply projectionLoop_recurrence.
Qed.

Lemma projected_interest_is_reference_recurrence_witness :
  calculateProjectedInterest 10000 5000 15
  = recurrence (hoistedInterest 15) 10000 5000 /\
  calculateProjectedInterest 10000 5000 15 = 190.
Proof.
  split.
  - apply (projected_interest_is_reference_recurrence 10000 5000 15).
    reflexivity.
  - vm_compute. reflexivity.
Defined.

(** ** Zero and its arithmetic on binary64 numbers *)

Lemma eqb_zero_kind (x : float) :
  (x =? 0) = true <-> exists s : bool, Prim2SF x = S754_zero s.
Proof.
  rewrite eqb_spec, Prim2SF_zero. unfold SFeqb.
  destruct (Prim2SF x) as [s|[|]| |[|] m e]; cbn; split;
    try discriminate; try (intros [s' H]; discriminate); eauto.
Qed.

Lemma Prim2SF_100 : Prim2SF 100 = S754_finite false 7036874417766400 (-46).
Proof. reflexivity. Qed.

Lemma Prim2SF_12 : Prim2SF 12 = S754_finite false 6755399441055744 (-49).
Proof. reflexivity. Qed.

Lemma Prim2SF_infinity : Prim2SF infinity = S754_infinity false.
Proof. reflexivity. Qed.

(** Zero divided by 100 and by 12 is zero. *)
Lemma zero_monthly_rate (rate : float) :
  (rate =? 0) = true -> (rate / 100 / 12 =? 0) = true.
Proof.
  intro H. apply eqb_zero_kind in H. destruct H as [s H].
  apply eqb_zero_kind. exists s.
  rewrite div_spec, div_spec, H, Prim2SF_100, Prim2SF_12.
  destruct s; reflexivity.
Qed.

(** A finite number times zero is zero. *)
Lemma finite_times_zero (b z : float) :
  isFinite b = true -> (z =? 0) = true -> (b * z =? 0) = true.
Proof.
  unfold isFinite. rewrite ltb_spec, abs_spec, Prim2SF_infinity.
  intros Hb Hz. apply eqb_zero_kind in Hz. destruct Hz as [s Hz].
  apply eqb_zero_kind. rewrite mul_spec, Hz.
  destruct (Prim2SF b) as [sb|[|]| |sb m e]; cbn in Hb; try discriminate;
    eexists; reflexivity.
Qed.

(** The floor of zero is zero. *)
Lemma floor_of_zero (x : float) : (x =? 0) = true -> (floor x =? 0) = true.
Proof.
  intro H. apply eqb_zero_kind in H. destruct H as [s H].
  rewrite <- (SF2Prim_Prim2SF x), H. destruct s; reflexivity.
Qed.

(** Zero plus zero is zero. *)
Lemma zero_plus_zero (x y : float) :
  (x =? 0) = true -> (y =? 0) = true -> (x + y =? 0) = true.
Proof.
  intros Hx Hy. apply eqb_zero_kind in Hx, Hy.
  destruct Hx as [sx Hx]. destruct Hy as [sy Hy].
  apply eqb_zero_kind. rewrite add_spec, Hx, Hy.
  destruct sx, sy; eexists; reflexivity.
Qed.

(** Adding zero to a number changes neither its sign test nor its value. *)
Lemma plus_zero (x c : float) :
  (c =? 0) = true -> isNaN x = false ->
  (x + c <? 0) = (x <? 0) /\ (x + c =? x) = true.
Proof.
  intros Hc Hx. apply eqb_zero_kind in Hc. destruct Hc as [sc Hc].
  unfold isNaN in Hx. apply negb_false_iff in Hx.
  destruct (Prim2SF x) as [sx|sx| |sx m e] eqn:Ex.
  - assert (Hz : exists s, Prim2SF (x + c) = S754_zero s).
    { rewrite add_spec, Ex, Hc. destruct sx, sc; eexists; reflexivity. }
    destruct Hz as [s Hz].
    rewrite !ltb_spec, eqb_spec, Hz, Ex, Prim2SF_zero. split; reflexivity.
  - assert (E : x + c = x).
    { apply Prim2SF_inj. rewrite add_spec, Ex, Hc. reflexivity. }
    rewrite E. split; [reflexivity|exact Hx].
  - rewrite eqb_spec, Ex in Hx. discriminate.
  - assert (E : x + c = x).
    { apply Prim2SF_inj. rewrite add_spec, Ex, Hc. reflexivity. }
    rewrite E. split; [reflexivity|exact Hx].
Qed.

(** ** No error condition; zero rate and zero charge *)

(** C4 as stated fails for a negative rate: at -12% a year the month-1
    interest on 1000 is floor(-10) = -10, not zero. *)
Lemma negative_rate_negative_interest :
  exists r : MonthData.t,
    nth_error (SimulationResult.data (calculateSimulation negativeRateParams)) 1
      = Some r /\
    MonthData.interestPaid r = (-10) /\
    (MonthData.interestPaid r =? 0) = false.
Proof.
  eexists. split; [vm_compute; reflexivity|]. split; reflexivity.
Qed.

Lemma simulation_terminates (p : SimulationParams) :
  exists (n : nat) (s' : State.t),
    (n <= 600)%nat /\ iterates p n (initState p) s' /\
    calculateSimulation p = finish s'.
Proof.
  destruct (whileLoop_iterates p (Z.to_nat MAX_MONTHS) (initState p))
    as (n & Hn & Hit).
  - change (State.month (initState p)) with 0%Z. unfold MAX_MONTHS. lia.
  - exists n, (finalState p). split; [|split].
    + change (State.month (initState p)) with 0%Z in Hn.
      unfold MAX_MONTHS in Hn. lia.
    + exact Hit.
    + reflexivity.
Qed.

Lemma interestOf_zero_rate (p : SimulationParams) (s : State.t) :
  (annualInterestRate p =? 0) = true -> isFinite (State.balance s) = true ->
  (interestOf p s =? 0) = true.
Proof.
  intros Hr Hb. unfold interestOf, monthlyRateOf.
  apply floor_of_zero. apply finite_times_zero; [exact Hb|].
  now apply zero_monthly_rate.
Qed.

Lemma zero_rate_final (p : SimulationParams) :
  (annualInterestRate p =? 0) = true -> zeroRateLedger (finalState p).
Proof.
  intro Hr. apply ledger_rule_b64.
  - intros s m b H. exact H.
  - split; [apply consecutive_single|]. split.
    + eexists. split; reflexivity.
    + intros _. reflexivity.
  - intros s (Hcons & (last & Hl & Hlb) & Htot) _ _.
    unfold zeroRateLedger, applyMonth.
    cbn [State.data State.balance State.totalInterest].
    destruct (lastRecord_split_b64 _ _ Hl) as [pre E].
    split; [|split].
    + rewrite E in *. apply consecutive_push; [assumption|].
      unfold noInterestStep.
      cbn [monthRecord MonthData.balance MonthData.interestPaid].
      rewrite Hlb. now apply interestOf_zero_rate.
    + exists (monthRecord p s). rewrite lastRecord_push_b64. split; reflexivity.
    + intro Hall. apply Forall_app in Hall. destruct Hall as [Hall _].
      apply zero_plus_zero; [now apply Htot|].
      apply interestOf_zero_rate; [exact Hr|].
      rewrite <- Hlb. rewrite Forall_forall in Hall. apply Hall.
      rewrite E. apply in_or_app. right. now left.
Qed.

Lemma zero_charge_final (p : SimulationParams) :
  (monthlyNewCharge p =? 0) = true ->
  consecutive noChargeStep (State.data (finalState p)).
Proof.
  intro Hch.
  assert (H : consecutive noChargeStep (State.data (finalState p)) /\
              exists last : MonthData.t,
                lastRecord (State.data (finalState p)) = Some last /\
                MonthData.balance last = State.balance (finalState p)).
  { apply (ledger_rule_b64 p
      (fun s => consecutive noChargeStep (State.data s) /\
                exists last : MonthData.t,
                  lastRecord (State.data s) = Some last /\
                  MonthData.balance last = State.balance s)).
    - intros s m b H. exact H.
    - split; [apply consecutive_single|]. eexists. split; reflexivity.
    - intros s (Hcons & last & Hl & Hlb) _ _. unfold applyMonth.
      cbn [State.data State.balance]. split.
      + destruct (lastRecord_split_b64 _ _ Hl) as [pre E]. rewrite E in *.
        apply consecutive_push; [assumption|].
        unfold noChargeStep.
        cbn [monthRecord MonthData.balance MonthData.principalPaid].
        rewrite Hlb. cbv zeta. intro Hnum.
        unfold newBalance, rawBalance.
        destruct (plus_zero _ _ Hch Hnum) as [Hsign Hval].
        rewrite Hsign.
        destruct (State.balance s - principalOf p s <? 0); [reflexivity|exact Hval].
      + exists (monthRecord p s). rewrite lastRecord_push_b64. split; reflexivity. }
  exact (proj1 H).
Qed.

Lemma interest_nonpos_final (p : SimulationParams) :
  (annualInterestRate p <=? 0) = true ->
  Forall (fun r => isNaN (MonthData.interestPaid r) = false ->
                   (MonthData.interestPaid r <=? 0) = true)
    (State.data (finalState p)).
Proof.
  intro Hr.
  apply (ledger_rule_b64 p
    (fun s => Forall (fun r => isNaN (MonthData.interestPaid r) = false ->
                               (MonthData.interestPaid r <=? 0) = true)
                (State.data s))).
  - intros s m b H. exact H.
  - constructor; [|constructor]. intros _. reflexivity.
  - intros s Hall Hc _. unfold applyMonth. cbn [State.data].
    apply Forall_app. split; [assumption|].
    constructor; [|constructor]. cbn [monthRecord MonthData.interestPaid].
    unfold interestOf, monthlyRateOf. apply interest_nonpos; [|exact Hr].
    now apply loopCond_balance_b64.
Qed.

Lemma not_neg_nonneg (x : float) :
  isNaN x = false -> (x <? 0) = false -> (0 <=? x) = true.
Proof.
  intros Hn H. apply isNaN_spec in Hn. by_kind x.
Qed.

Lemma leb_neg (r x : float) :
  (r <=? x) = true -> (x <? 0) = true -> (r <? 0) = true.
Proof.
  intros H Hx. apply neg_kind in Hx. apply neg_kind. rewrite leb_spec in H.
  destruct Hx as [E|(m & e & E)]; rewrite E in H;
    destruct (Prim2SF r) as [s|[|]| |[|] m' e']; try discriminate; eauto.
Qed.

Lemma newBalance_no_growth (p : SimulationParams) (s : State.t) :
  (monthlyNewCharge p <=? 0) = true ->
  isNaN (newBalance p s) = false ->
  (newBalance p s
   <=? (if State.balance s - principalOf p s <? 0 then 0
        else State.balance s - principalOf p s)) = true.
Proof.
  intros Hch Hn. unfold newBalance, rawBalance in *.
  set (x := State.balance s - principalOf p s) in *.
  destruct (x + monthlyNewCharge p <? 0) eqn:Hraw.
  - destruct (x <? 0) eqn:Hx; [reflexivity|].
    apply not_neg_nonneg; [|exact Hx].
    assert (Hnum : isNaN (x + monthlyNewCharge p) = false).
    { apply isNaN_spec. apply neg_kind in Hraw.
      destruct Hraw as [E|(m & e & E)]; rewrite E; discriminate. }
    exact (proj1 (add_number _ _ Hnum)).
  - pose proof (add_nonpos_r x (monthlyNewCharge p) Hch Hn) as Hle.
    destruct (x <? 0) eqn:Hx; [|exact Hle].
    pose proof (leb_neg _ _ Hle Hx). congruence.
Qed.

Lemma no_growth_final (p : SimulationParams) :
  (monthlyNewCharge p <=? 0) = true ->
  consecutive noGrowthStep (State.data (finalState p)).
Proof.
  intro Hch.
  assert (H : consecutive noGrowthStep (State.data (finalState p)) /\
              exists last : MonthData.t,
                lastRecord (State.data (finalState p)) = Some last /\
                MonthData.balance last = State.balance (finalState p)).
  { apply (ledger_rule_b64 p
      (fun s => consecutive noGrowthStep (State.data s) /\
                exists last : MonthData.t,
                  lastRecord (State.data s) = Some last /\
                  MonthData.balance last = State.balance s)).
    - intros s m b H. exact H.
    - split; [apply consecutive_single|]. eexists. split; reflexivity.
    - intros s (Hcons & last & Hl & Hlb) _ _. unfold applyMonth.
      cbn [State.data State.balance]. split.
      + destruct (lastRecord_split_b64 _ _ Hl) as [pre E]. rewrite E in *.
        apply consecutive_push; [assumption|].
        unfold noGrowthStep.
        cbn [monthRecord MonthData.balance MonthData.principalPaid].
        rewrite Hlb. cbv zeta. now apply newBalance_no_growth.
      + exists (monthRecord p s). rewrite lastRecord_push_b64. split; reflexivity. }
  exact (proj1 H).
Qed.

(** C4 (amended): calculateSimulation has no error condition: for every
    params its loop ends, by its own condition or a break, after entering
    the body at most 600 times, and the result is returned.  With a zero
    annualInterestRate every month that starts from a finite balance has
    zero interest, and the total interest is zero when all the balances of
    the trajectory are finite.  With annualInterestRate <= 0 no month's
    interest is positive, whenever it is a number: a negative rate can give
    negative interest, not zero.  With a zero monthlyNewCharge each balance
    is the previous one less the principal paid, floored at zero (unless
    that difference is NaN); with monthlyNewCharge <= 0 no balance exceeds
    that value, whenever it is a number. *)
Theorem simulation_accepts_all_inputs (p : SimulationParams) :
  (exists (n : nat) (s' : State.t),
     (n <= 600)%nat /\ iterates p n (initState p) s' /\
     calculateSimulation p = finish s') /\
  ((annualInterestRate p =? 0) = true ->
   consecutive noInterestStep (SimulationResult.data (calculateSimulation p)) /\
   (Forall (fun r => isFinite (MonthData.balance r) = true)
      (SimulationResult.data (calculateSimulation p)) ->
    (SimulationResult.totalInterest (calculateSimulation p) =? 0) = true)) /\
  ((annualInterestRate p <=? 0) = true ->
   forall r : MonthData.t,
     In r (SimulationResult.data (calculateSimulation p)) ->
     isNaN (MonthData.interestPaid r) = false ->
     (MonthData.interestPaid r <=? 0) = true) /\
  ((monthlyNewCharge p =? 0) = true ->
   consecutive noChargeStep (SimulationResult.data (calculateSimulation p))) /\
  ((monthlyNewCharge p <=? 0) = true ->
   consecutive noGrowthStep (SimulationResult.data (calculateSimulation p))).
Proof.
  split; [apply simulation_terminates|]. split; [|split; [|split]].
  - intro Hr. destruct (zero_rate_final p Hr) as (Hcons & _ & Htot).
    split; [exact Hcons|exact Htot].
  - intros Hr r Hin Hn. pose proof (interest_nonpos_final p Hr) as Hall.
    rewrite Forall_forall in Hall. exact (Hall r Hin Hn).
  - intro Hch. exact (zero_charge_final p Hch).
  - intro Hch. exact (no_growth_final p Hch).
Qed.

Lemma simulation_accepts_all_inputs_witness :
  (SimulationResult.totalInterest (calculateSimulation exactParams) =? 0) = true /\
  consecutive noChargeStep (SimulationResult.data (calculateSimulation exactParams)) /\
  consecutive noGrowthStep (SimulationResult.data (calculateSimulation exactParams)) /\
  forall r : MonthData.t,
    In r (SimulationResult.data (calculateSimulation exactParams)) ->
    isNaN (MonthData.interestPaid r) = false ->
    (MonthData.interestPaid r <=? 0) = true.
Proof.
  assert (Hr : (annualInterestRate exactParams =? 0) = true) by reflexivity.
  assert (Hr' : (annualInterestRate exactParams <=? 0) = true) by reflexivity.
  assert (Hch : (monthlyNewCharge exactParams =? 0) = true) by reflexivity.
  assert (Hch' : (monthlyNewCharge exactParams <=? 0) = true) by reflexivity.
  assert (Hfin : Forall (fun r => isFinite (MonthData.balance r) = true)
                   (SimulationResult.data (calculateSimulation exactParams))).
  { vm_compute. repeat constructor. }
  destruct (simulation_accepts_all_inputs exactParams)
    as (_ & Hzero & Hneg & Hcharge & Hgrow).
  split; [exact (proj2 (Hzero Hr) Hfin)|].
  split; [exact (Hcharge Hch)|]. split; [exact (Hgrow Hch')|exact (Hneg Hr')].
Defined.

(** * Further properties on binary64 numbers *)

(** ** The balance is floored at zero; the payment is capped *)

Lemma floored_final (p : SimulationParams) :
  Forall (fun r => (MonthData.month r = 0%Z /\
                    MonthData.balance r = initialBalance p) \/
                   (MonthData.balance r <? 0) = false)
    (State.data (finalState p)).
Proof.
  apply (ledger_rule_b64 p
    (fun s => Forall (fun r => (MonthData.month r = 0%Z /\
                                MonthData.balance r = initialBalance p) \/
                               (MonthData.balance r <? 0) = false)
                (State.data s))).
  - intros s m b H. exact H.
  - constructor; [|constructor]. left. split; reflexivity.
  - intros s Hall _ _. unfold applyMonth. cbn [State.data].
    apply Forall_app. split; [assumption|].
    constructor; [|constructor]. right. cbn. apply newBalance_not_neg.
Qed.

(** X2: no record after month 0 has a balance below zero, and none at all
    when initialBalance >= 0 (binary64 comparison: the balance can be NaN
    after an overflow, and NaN is not below zero). *)
Theorem balance_never_negative (p : SimulationParams) (r : MonthData.t)
    (Hin : In r (SimulationResult.data (calculateSimulation p)))
    (Hm : (1 <= MonthData.month r)%Z \/ (0 <=? initialBalance p) = true) :
  (MonthData.balance r <? 0) = false.
Proof.
  pose proof (floored_final p) as Hall. rewrite Forall_forall in Hall.
  destruct (Hall r Hin) as [[H0 Hb]|H]; [|exact H].
  destruct Hm as [Hm|Hm]; [lia|]. rewrite Hb. now apply nonneg_not_neg.
Qed.

Lemma balance_never_negative_witness :
  exists r : MonthData.t,
    nth_error (SimulationResult.data (calculateSimulation negativeRateParams)) 2
      = Some r /\
    (MonthData.balance r <? 0) = false.
Proof.
  destruct (nth_error (SimulationResult.data (calculateSimulation negativeRateParams)) 2)
    as [r|] eqn:Hr; [|exfalso; vm_compute in Hr; discriminate].
  exists r. split; [reflexivity|].
  apply (balance_never_negative negativeRateParams r).
  - exact (nth_error_In _ 2 Hr).
  - right. reflexivity.
Defined.

Lemma paymentOf_capped (balance interest monthlyRepayment : float) :
  isNaN monthlyRepayment = false ->
  (paymentOf balance interest monthlyRepayment <=? monthlyRepayment) = true.
Proof.
  intro Hnum. unfold paymentOf.
  destruct (balance + interest <=? monthlyRepayment) eqn:E; [exact E|].
  now apply not_nan_leb_refl.
Qed.

Lemma payments_capped_final_b64 (p : SimulationParams) :
  isNaN (monthlyRepayment p) = false ->
  Forall (fun r => (1 <= MonthData.month r)%Z ->
                   (MonthData.totalPaid r <=? monthlyRepayment p) = true)
    (State.data (finalState p)).
Proof.
  intro Hnum.
  apply (ledger_rule_b64 p
    (fun s => Forall (fun r => (1 <= MonthData.month r)%Z ->
                               (MonthData.totalPaid r <=? monthlyRepayment p) = true)
                (State.data s))).
  - intros s m b H. exact H.
  - constructor; [|constructor]. cbn. lia.
  - intros s Hall _ _. unfold applyMonth. cbn [State.data].
    apply Forall_app. split; [assumption|].
    constructor; [|constructor]. intros _. cbn. unfold paymentFor.
    now apply paymentOf_capped.
Qed.

(** X4: when monthlyRepayment is a number (not NaN), no month's payment
    exceeds it: every record with month >= 1 has totalPaid <=
    monthlyRepayment. *)
Theorem payments_never_exceed_repayment (p : SimulationParams) (r : MonthData.t)
    (Hnum : isNaN (monthlyRepayment p) = false)
    (Hin : In r (SimulationResult.data (calculateSimulation p)))
    (Hm : (1 <= MonthData.month r)%Z) :
  (MonthData.totalPaid r <=? monthlyRepayment p) = true.
Proof.
  pose proof (payments_capped_final_b64 p Hnum) as Hall.
  rewrite Forall_forall in Hall. exact (Hall r Hin Hm).
Qed.

Lemma payments_never_exceed_repayment_witness :
  exists r : MonthData.t,
    nth_error (SimulationResult.data (calculateSimulation fractionParams)) 1
      = Some r /\
    (MonthData.totalPaid r <=? monthlyRepayment fractionParams) = true.
Proof.
  destruct (nth_error (SimulationResult.data (calculateSimulation fractionParams)) 1)
    as [r|] eqn:Hr; [|exfalso; vm_compute in Hr; discriminate].
  exists r. split; [reflexivity|].
  apply (payments_never_exceed_repayment fractionParams r).
  - reflexivity.
  - exact (nth_error_In _ 1 Hr).
  - vm_compute in Hr. injection Hr as <-. cbn. lia.
Defined.

(** ** The trajectory follows the rule of the loop *)

Lemma followsRule_applyMonth (p : SimulationParams) (s : State.t) :
  books s -> consecutive (followsRule p) (State.data s) ->
  loopCond s = true ->
  consecutive (followsRule p) (State.data (applyMonth p s)).
Proof.
  intros (last & Hl & Hm & Hb & Hi & Hp) Hcons Hc.
  destruct (lastRecord_split_b64 _ _ Hl) as [pre E].
  unfold applyMonth. cbn [State.data]. rewrite E in *.
  apply consecutive_push; [assumption|].
  unfold followsRule.
  cbn [monthRecord MonthData.month MonthData.balance MonthData.principalPaid
       MonthData.interestPaid MonthData.totalPaid MonthData.cumulativeInterest
       MonthData.cumulativePrincipal MonthData.remainingInterest].
  rewrite Hm, Hb, Hi, Hp.
  split; [now apply loopCond_balance_b64|]. repeat split.
Qed.

Lemma followsRule_final (p : SimulationParams) :
  consecutive (followsRule p) (State.data (finalState p)).
Proof.
  apply (finalState_rule_b64 p
    (fun s => books s /\ consecutive (followsRule p) (State.data s))
    (fun s => consecutive (followsRule p) (State.data s))).
  - split; [apply books_init_b64|apply consecutive_single].
  - intros s s' [Hbk Hcons] Hc Hb. apply loopBody_Continue_b64 in Hb.
    destruct Hb as [_ ->].
    split; [apply books_applyMonth_b64|now apply followsRule_applyMonth].
  - intros s s' [Hbk Hcons] Hc Hb.
    destruct (loopBody_cases_b64 p s) as [[_ E]|[_ [E|[E|E]]]];
      rewrite E in Hb; inversion Hb; subst s'.
    + exact Hcons.
    + now apply followsRule_applyMonth.
    + exact (followsRule_applyMonth p s Hbk Hcons Hc).
  - intros s [_ H] _. exact H.
Qed.

(** X17: every record after the first follows from the record before it by
    the rule of the loop, computed on binary64 numbers in the order of the
    code: the previous balance is > 0, month is the next one, interestPaid is
    floor(previous balance * (annualInterestRate / 100 / 12)), totalPaid is
    monthlyRepayment capped at previous balance + interest, principalPaid is
    totalPaid - interestPaid, balance is previous balance - principalPaid +
    monthlyNewCharge floored at 0, the cumulative fields add the month's
    interest and principal, and remainingInterest is the projection from the
    new balance. *)
Theorem trajectory_follows_recurrence
    (p : SimulationParams) (i : nat) (a b : MonthData.t)
    (Ha : nth_error (SimulationResult.data (calculateSimulation p)) i = Some a)
    (Hb : nth_error (SimulationResult.data (calculateSimulation p)) (S i) = Some b) :
  followsRule p a b.
Proof. exact (followsRule_final p i a b Ha Hb). Qed.

Lemma trajectory_follows_recurrence_witness :
  exists a b : MonthData.t,
    nth_error (SimulationResult.data (calculateSimulation fractionParams)) 0
      = Some a /\
    nth_error (SimulationResult.data (calculateSimulation fractionParams)) 1
      = Some b /\
    followsRule fractionParams a b.
Proof.
  destruct (nth_error (SimulationResult.data (calculateSimulation fractionParams)) 0)
    as [a|] eqn:Ha; [|exfalso; vm_compute in Ha; discriminate].
  destruct (nth_error (SimulationResult.data (calculateSimulation fractionParams)) 1)
    as [b|] eqn:Hb; [|exfalso; vm_compute in Hb; discriminate].
  exists a, b. split; [reflexivity|]. split; [reflexivity|].
  exact (trajectory_follows_recurrence fractionParams 0 a b Ha Hb).
Defined.

(** ** Interest is not negative when the rate is not *)

Lemma nonnegOrNaN_add (a b : float) :
  nonnegOrNaN a -> nonnegOrNaN b -> nonnegOrNaN (a + b).
Proof.
  intros Ha Hb. unfold nonnegOrNaN in *.
  destruct (isNaN (a + b)) eqn:E; [now right|]. left.
  destruct (add_number _ _ E) as [Na Nb].
  destruct Ha as [Ha|Ha]; [|congruence].
  destruct Hb as [Hb|Hb]; [|congruence].
  now apply add_nonneg.
Qed.

Lemma nonnegOrNaN_interest (balance rate : float) :
  (0 <=? rate) = true ->
  (0 <? balance) = true \/ isNaN balance = true ->
  nonnegOrNaN (floor (balance * (rate / 100 / 12))).
Proof.
  intros Hr Hb. unfold nonnegOrNaN.
  destruct (isNaN (floor (balance * (rate / 100 / 12)))) eqn:E; [now right|].
  left. destruct Hb as [Hb|Hb].
  - now apply interest_nonneg.
  - apply floor_number in E. apply mul_number in E. destruct E. congruence.
Qed.

Lemma projectionLoop_nonneg (R rate : float) :
  (0 <=? rate) = true ->
  forall (n : nat) (bal tot : float),
    (0 <? bal) = true \/ isNaN bal = true ->
    nonnegOrNaN tot ->
    nonnegOrNaN (projectionLoop n R (rate / 100 / 12) bal tot).
Proof.
  intro Hr. induction n as [|n IH]; intros bal tot Hb Ht; [exact Ht|].
  cbn [projectionLoop]. cbv zeta.
  set (interest := floor (bal * (rate / 100 / 12))).
  assert (Hi : nonnegOrNaN interest) by (now apply nonnegOrNaN_interest).
  pose proof (nonnegOrNaN_add tot interest Ht Hi) as Hsum.
  destruct (bal - (paymentOf bal interest R - interest) <=? 0) eqn:E;
    [exact Hsum|].
  apply IH; [|exact Hsum].
  destruct (0 <? bal - (paymentOf bal interest R - interest)) eqn:E';
    [now left|right]. now apply unordered_with_zero.
Qed.

(** The estimate is not always a number: with a repayment of -1e308 the
    projected balance overflows to Infinity, and Infinity * 0 is NaN. *)
Example projected_interest_overflow :
  isNaN (calculateProjectedInterest 1e308 (-1e308) 0) = true.
Proof. vm_compute. reflexivity. Qed.

(** X11: with annualInterestRate >= 0, calculateProjectedInterest is never
    negative, for every balance and monthlyRepayment: it is >= 0 whenever it
    is a number. *)
Theorem projected_interest_nonnegative
    (balance monthlyRepayment annualInterestRate : float)
    (Hrate : (0 <=? annualInterestRate) = true)
    (Hnum : isNaN (calculateProjectedInterest balance monthlyRepayment
                     annualInterestRate) = false) :
  (0 <=? calculateProjectedInterest balance monthlyRepayment
           annualInterestRate) = true.
Proof.
  unfold calculateProjectedInterest in *.
  destruct (balance <=? 0) eqn:E; [reflexivity|].
  destruct (projectionLoop_nonneg monthlyRepayment annualInterestRate Hrate
              MAX_PROJ_MONTHS balance 0) as [H|H].
  - destruct (0 <? balance) eqn:E'; [now left|right].
    now apply unordered_with_zero.
  - left. reflexivity.
  - exact H.
  - congruence.
Qed.

Lemma projected_interest_nonnegative_witness :
  (0 <=? calculateProjectedInterest 6000 96 19.4) = true.
Proof.
  apply projected_interest_nonnegative.
  - reflexivity.
  - vm_compute. reflexivity.
Defined.

(** X21: with annualInterestRate >= 0 no month's interest is negative:
    every record's interestPaid is >= 0 whenever it is a number. *)
Theorem interest_never_negative (p : SimulationParams) (r : MonthData.t)
    (Hrate : (0 <=? annualInterestRate p) = true)
    (Hin : In r (SimulationResult.data (calculateSimulation p)))
    (Hnum : isNaN (MonthData.interestPaid r) = false) :
  (0 <=? MonthData.interestPaid r) = true.
Proof.
  pose proof (interest_nonneg_final p Hrate) as Hall.
  rewrite Forall_forall in Hall. exact (Hall r Hin Hnum).
Qed.

Lemma interest_never_negative_witness :
  exists r : MonthData.t,
    nth_error (SimulationResult.data (calculateSimulation scenarioC)) 1 = Some r /\
    (0 <=? MonthData.interestPaid r) = true.
Proof.
  destruct (nth_error (SimulationResult.data (calculateSimulation scenarioC)) 1)
    as [r|] eqn:Hr; [|exfalso; vm_compute in Hr; discriminate].
  exists r. split; [reflexivity|].
  apply (interest_never_negative scenarioC r).
  - reflexivity.
  - exact (nth_error_In _ 1 Hr).
  - vm_compute in Hr. injection Hr as <-. reflexivity.
Defined.
